(** * Co-occurrence graph, ranking and graph view of [app.py]

    A shallow embedding of the computational core of [app.py]:
    [build_graph] (the sliding-window co-occurrence graph), the ranked
    table that [main] derives from the PageRank scores, the word-count
    gate in front of the pipeline, the cutoff/selection of the displayed
    subgraph and the per-node styling loop.

    Python values are modelled as follows.
    - [str] is [string]; case mapping and whitespace are the ASCII ones.
    - [int] is [Z]; list indexing follows Python (negative indices count
      from the end, anything out of range raises [IndexError]).
    - [float] scores are exact rationals [Q]: only their order, sums and
      products by constants are used.
    - a [networkx.Graph] is its adjacency structure, a dict of dicts kept
      in insertion order, here an association list from a node to the
      list of its neighbours.
    - a [pandas.DataFrame] is the list of its rows. *)

From Stdlib Require Import List String Ascii Bool ZArith QArith Lia Arith.
From Stdlib Require Import Qabs Permutation Sorted.
Import ListNotations.

Local Open Scope string_scope.
Local Open Scope Z_scope.
Local Open Scope list_scope.

(** ** Exceptions *)

Inductive exn : Type :=
| IndexError
| ValueError
| StreamlitAPIException.

Inductive result (A : Type) : Type :=
| Ok (a : A)
| Raise (e : exn).

Arguments Ok {A} a.
Arguments Raise {A} e.

Definition bind {A B : Type} (m : result A) (f : A -> result B) : result B :=
  match m with
  | Ok a => f a
  | Raise e => Raise e
  end.

Notation "x <- m ;; k" := (bind m (fun x => k))
  (at level 61, m at next level, right associativity).

(** ** Python lists and ranges *)

(** [l[k]]. *)
Definition getitem {A : Type} (l : list A) (k : Z) : result A :=
  let n := Z.of_nat (List.length l) in
  let k' := if k <? 0 then k + n else k in
  if (k' <? 0) || (n <=? k') then Raise IndexError
  else match nth_error l (Z.to_nat k') with
       | Some a => Ok a
       | None => Raise IndexError
       end.

(** [range(lo, hi)]. *)
Definition py_range (lo hi : Z) : list Z :=
  map (fun k => lo + Z.of_nat k) (seq 0 (Z.to_nat (hi - lo))).

(** [for k in l: body], threading the loop state and stopping at the
    first exception. *)
Fixpoint for_each {S : Type} (l : list Z) (body : Z -> S -> result S) (s : S)
  : result S :=
  match l with
  | [] => Ok s
  | k :: l' =>
      match body k s with
      | Ok s' => for_each l' body s'
      | Raise e => Raise e
      end
  end.

(** ** [networkx.Graph] *)

(** Terms are strings. *)
Abbreviation term := string (only parsing).

(** [G._adj]: node -> neighbours, both in insertion order. *)
Definition Graph := list (term * list term).

Definition empty_graph : Graph := [].

Definition nodes (G : Graph) : list term := map fst G.

Fixpoint neighbors (G : Graph) (u : term) : option (list term) :=
  match G with
  | [] => None
  | (n, ns) :: G' => if String.eqb n u then Some ns else neighbors G' u
  end.

Definition mem (u : term) (l : list term) : bool := existsb (String.eqb u) l.

Definition has_node (G : Graph) (u : term) : bool := mem u (nodes G).

Definition has_edge (G : Graph) (u v : term) : bool :=
  match neighbors G u with
  | Some ns => mem v ns
  | None => false
  end.

(** [if u not in G._node: G._adj[u] = {}] *)
Definition add_node (G : Graph) (u : term) : Graph :=
  if has_node G u then G else G ++ [(u, [])].

(** [G._adj[u][v] = datadict]: a key already present keeps its place. *)
Fixpoint link (G : Graph) (u v : term) : Graph :=
  match G with
  | [] => []
  | (n, ns) :: G' =>
      if String.eqb n u
      then (n, if mem v ns then ns else ns ++ [v]) :: G'
      else (n, ns) :: link G' u v
  end.

Definition add_edge (G : Graph) (u v : term) : Graph :=
  link (link (add_node (add_node G u) v) u v) v u.

(** ** [build_graph] *)

Definition build_graph (words : list term) (window_size : Z) : result Graph :=
  for_each (py_range 0 (Z.of_nat (List.length words) - window_size))
    (fun i G =>
       for_each (py_range 1 (window_size + 1))
         (fun j G =>
            a <- getitem words i ;;
            b <- getitem words (i + j) ;;
            if negb (String.eqb a b) then Ok (add_edge G a b) else Ok G)
         G)
    empty_graph.

(** ** Score maps *)

(** A [dict] from term to score, in insertion order. *)
Definition ScoreMap := list (term * Q).

(** [pr.get(word, default)] *)
Fixpoint get (pr : ScoreMap) (word : term) (default : Q) : Q :=
  match pr with
  | [] => default
  | (k, s) :: pr' => if String.eqb k word then s else get pr' word default
  end.

Definition Qsum (l : list Q) : Q := fold_right Qplus 0%Q l.

(** ** The ranker

    Modelled from the spec: [main] obtains the scores from
    [nx.pagerank(G)], a library call with default arguments whose code
    is not part of [app.py]. The module follows the ranker of the
    design's section 4.2, on exact rationals. *)

Module Ranker.

Definition damping : Q := 85 # 100.
Definition max_iter : nat := 100.
Definition tolerance : Q := 1 # 1000000.

Definition score_of (x : ScoreMap) (u : term) : Q := get x u 0%Q.

Definition size (G : Graph) : Q := inject_Z (Z.of_nat (List.length G)).

Definition degree (ns : list term) : Q := inject_Z (Z.of_nat (List.length ns)).

(** Uniform start: 1 / node count for every node. *)
Definition initial (G : Graph) : ScoreMap :=
  map (fun u => (u, (1 / size G)%Q)) (nodes G).

(** What every node hands out: an equal fraction of its current score
    to each of its neighbours. *)
Definition shares (G : Graph) (x : ScoreMap) : list (term * Q) :=
  flat_map (fun e => map (fun v => (v, (score_of x (fst e) / degree (snd e))%Q))
                         (snd e)) G.

Definition received (G : Graph) (x : ScoreMap) (v : term) : Q :=
  Qsum (map snd (filter (fun c => String.eqb (fst c) v) (shares G x))).

(** Mass held by nodes of degree 0, redistributed uniformly. *)
Definition dangling (G : Graph) (x : ScoreMap) : Q :=
  Qsum (map (fun e => match snd e with
                      | [] => score_of x (fst e)
                      | _ :: _ => 0%Q
                      end) G).

Definition step (G : Graph) (x : ScoreMap) : ScoreMap :=
  map (fun v => (v, ((1 - damping) / size G
                     + damping * (received G x v + dangling G x / size G))%Q))
      (nodes G).

(** L1 norm of the change between two iterates. *)
Definition l1_change (x y : ScoreMap) : Q :=
  Qsum (map (fun c => Qabs (snd c - score_of y (fst c))) x).

Definition converged (x y : ScoreMap) : bool :=
  negb (Qle_bool tolerance (l1_change x y)).

Fixpoint iterate (G : Graph) (fuel : nat) (x : ScoreMap) : ScoreMap :=
  match fuel with
  | O => x
  | S fuel' =>
      let x' := step G x in
      if converged x' x then x' else iterate G fuel' x'
  end.

(** Modelled from the spec: [nx.pagerank] is a library function that is
    not part of [app.py]; this is the ranker of the design's section 4.2:
    damping 0.85, at most 100 iterations, tolerance 1e-6 on the L1
    change, uniform start, early exit on convergence and the last
    iterate at the cap. Scores are exact rationals. *)
Definition rank (G : Graph) : ScoreMap :=
  iterate G max_iter (initial G).

(** The k-th iterate of the power iteration. *)
Fixpoint iterates (G : Graph) (k : nat) : ScoreMap :=
  match k with
  | O => initial G
  | S k' => step G (iterates G k')
  end.

Definition total (G : Graph) (x : ScoreMap) : Q :=
  Qsum (map (score_of x) (nodes G)).

End Ranker.

(** ** The ranked table of [main] *)

Record row : Type := mk_row { ID : Z; Kata : term; PageRank : Q }.

(** [pd.DataFrame(pr.items(), columns=['Kata', 'PageRank'])] *)
Definition items (pr : ScoreMap) : list (term * Q) := pr.

Fixpoint insert_desc (r : term * Q) (l : list (term * Q)) : list (term * Q) :=
  match l with
  | [] => [r]
  | r' :: l' =>
      if Qle_bool (snd r') (snd r) then r :: r' :: l'
      else r' :: insert_desc r l'
  end.

(** [df.sort_values(by='PageRank', ascending=False)]: the sort key is the
    score column alone. The library's default sort is not stable, so the
    order among rows of equal score is not fixed by the code; here they
    are kept in the frame's row order. *)
Definition sort_values (rows : list (term * Q)) : list (term * Q) :=
  fold_right insert_desc [] rows.

(** [df.insert(0, 'ID', range(1, len(df) + 1))] *)
Definition insert_ID (rows : list (term * Q)) : list row :=
  map (fun p => mk_row (fst p) (fst (snd p)) (snd (snd p)))
      (combine (py_range 1 (Z.of_nat (List.length rows) + 1)) rows).

Definition ranked_index (pr : ScoreMap) : list row :=
  insert_ID (sort_values (items pr)).

(** Position of the first row for a term, if any. *)
Fixpoint position (t : term) (df : list row) : option nat :=
  match df with
  | [] => None
  | r :: df' =>
      if String.eqb (Kata r) t then Some O
      else option_map S (position t df')
  end.

(** ** Processing of uploads in [main] *)

Record paper : Type := mk_paper {
  graph : Graph;
  pagerank : ScoreMap;
  df : list row;
  count : Z
}.

Record session : Type := mk_session {
  paper_data : list (string * paper);
  active_file_key : option string
}.

Definition initial_session : session := mk_session [] None.

(** Calls to the builder and to the ranker made so far. *)
Inductive call : Type :=
| Built (words : list term) (window_size : Z)
| Ranked (G : Graph).

Definition has_key (k : string) (d : list (string * paper)) : bool :=
  existsb (fun e => String.eqb (fst e) k) d.

(** [d[k] = v] *)
Fixpoint set_item (d : list (string * paper)) (k : string) (v : paper)
  : list (string * paper) :=
  match d with
  | [] => [(k, v)]
  | (k', v') :: d' =>
      if String.eqb k' k then (k', v) :: d' else (k', v') :: set_item d' k v
  end.

Fixpoint get_item (d : list (string * paper)) (k : string) : option paper :=
  match d with
  | [] => None
  | (k', v) :: d' => if String.eqb k' k then Some v else get_item d' k
  end.

(** An uploaded file: its name and the cleaned words [process_text]
    extracts from it. *)
Definition upload : Type := string * list term.

Section Main.

(** [nx.pagerank] *)
Variable nx_pagerank : Graph -> ScoreMap.

(** The body of the loop over the uploaded files. *)
Definition process_upload (window_size : Z) (st : session * list call)
    (f : upload) : result (session * list call) :=
  let '(name, words) := f in
  let '(s, log) := st in
  if negb (has_key name (paper_data s)) then
    if 5 <? Z.of_nat (List.length words) then
      G <- build_graph words window_size ;;
      let pr := nx_pagerank G in
      let df := ranked_index pr in
      Ok (mk_session
            (set_item (paper_data s) name
               (mk_paper G pr df (Z.of_nat (List.length words))))
            (Some name),
          log ++ [Built words window_size; Ranked G])
    else Ok (s, log)
  else Ok (s, log).

Fixpoint process_uploads (window_size : Z) (st : session * list call)
    (fs : list upload) : result (session * list call) :=
  match fs with
  | [] => Ok st
  | f :: fs' =>
      st' <- process_upload window_size st f ;;
      process_uploads window_size st' fs'
  end.

(** What the page shows: the dashboard of the active paper, or the
    [st.info] message. *)
Inductive page : Type :=
| Dashboard (selected : string) (p : paper)
| Info (msg : string).

(** [files.index(active_file_key)] raises [ValueError] on a key that is
    not stored. *)
Definition display (s : session) : result page :=
  match paper_data s with
  | [] => Ok (Info "Silakan upload file PDF di sidebar.")
  | _ :: _ =>
      match active_file_key s with
      | Some k =>
          match get_item (paper_data s) k with
          | Some p => Ok (Dashboard k p)
          | None => Raise ValueError
          end
      | None => Raise ValueError
      end
  end.

(** [st.sidebar.number_input(..., min_value=, max_value=, value=)]: a
    start value outside the bounds is refused with an exception. *)
Definition number_input (min_value max_value value : Z) : result Z :=
  if (value <? min_value) || (max_value <? value)
  then Raise StreamlitAPIException
  else Ok value.

(** The run of [main] up to the number input of the dashboard; what is
    drawn from there on is [view] below. *)
Definition main (window_size : Z) (s : session) (fs : list upload)
  : result (session * list call * page) :=
  st <- process_uploads window_size (s, []) fs ;;
  pg <- display (fst st) ;;
  match pg with
  | Dashboard _ p =>
      let total_words := Z.of_nat (List.length (df p)) in
      max_words <- number_input 1 total_words (Z.min 40 total_words) ;;
      Ok (fst st, snd st, pg)
  | Info _ => Ok (fst st, snd st, pg)
  end.

End Main.

(** ** Filter, search and styling of the displayed graph *)

(** [df.head(n)] *)
Definition head (df : list row) (n : Z) : list row :=
  if 0 <=? n then firstn (Z.to_nat n) df
  else firstn (Z.to_nat (Z.of_nat (List.length df) + n)) df.

(** [df.head(max_words)['Kata'].tolist()] *)
Definition top_words (df : list row) (max_words : Z) : list term :=
  map Kata (head df max_words).

(** [G.subgraph(selected_words)]: the subgraph induced on the selected
    nodes of [G]. *)
Definition subgraph (G : Graph) (selected : list term) : Graph :=
  map (fun e => (fst e, filter (fun v => mem v selected) (snd e)))
      (filter (fun e => mem (fst e) selected) G).

(** [G.subgraph(selected_words) if selected_words else G] *)
Definition G_vis (G : Graph) (selected_words : list term) : Graph :=
  match selected_words with
  | [] => G
  | _ :: _ => subgraph G selected_words
  end.

Definition is_space (c : ascii) : bool :=
  let n := nat_of_ascii c in
  ((9 <=? n) && (n <=? 13) || (28 <=? n) && (n <=? 32))%nat.

Definition lower_ascii (c : ascii) : ascii :=
  let n := nat_of_ascii c in
  if ((65 <=? n) && (n <=? 90))%nat then ascii_of_nat (n + 32) else c.

(** [s.lower()] *)
Fixpoint lower (s : string) : string :=
  match s with
  | EmptyString => EmptyString
  | String c s' => String (lower_ascii c) (lower s')
  end.

Fixpoint lstrip (s : string) : string :=
  match s with
  | EmptyString => EmptyString
  | String c s' => if is_space c then lstrip s' else s
  end.

Fixpoint rstrip (s : string) : string :=
  match s with
  | EmptyString => EmptyString
  | String c s' =>
      match rstrip s' with
      | EmptyString => if is_space c then EmptyString else String c EmptyString
      | r => String c r
      end
  end.

(** [s.strip()] *)
Definition strip (s : string) : string := rstrip (lstrip s).

(** [s.split(",")] *)
Fixpoint split_comma (s : string) : list string :=
  match s with
  | EmptyString => [EmptyString]
  | String c s' =>
      if Ascii.eqb c "," then EmptyString :: split_comma s'
      else match split_comma s' with
           | [] => [String c EmptyString]
           | h :: t => String c h :: t
           end
  end.

Definition truthy (s : string) : bool :=
  match s with
  | EmptyString => false
  | String _ _ => true
  end.

(** [[w.strip().lower() for w in search_input.split(",") if w.strip()]] *)
Definition search_terms (search_input : string) : list term :=
  map (fun w => lower (strip w))
      (filter (fun w => truthy (strip w)) (split_comma search_input)).

(** A node of the rendered network. *)
Record node : Type := mk_node {
  id : term;
  size : Q;
  physics : bool;
  color : string;
  borderWidth : option Z;
  title : term * Q
}.

Definition default_score : Q := 1 # 1000.

(** The body of [for node in net.nodes]. *)
Definition style (pr : ScoreMap) (terms : list term) (word : term) : node :=
  let score := get pr word default_score in
  let n := mk_node word (score * 1000)%Q false "#97C2FC" None (word, score) in
  if mem word terms
  then mk_node (id n) (score * 1600)%Q (physics n) "#FF4B4B" (Some 3) (title n)
  else n.

(** The styled nodes of the view for a cutoff, an optional explicit
    selection and a search string. *)
Definition selected_words (df : list row) (max_words : Z)
    (included : option (list term)) : list term :=
  match included with
  | Some ws => ws
  | None => top_words df max_words
  end.

Definition view (G : Graph) (pr : ScoreMap) (df : list row) (max_words : Z)
    (included : option (list term)) (search_input : string)
  : Graph * list node :=
  let Gv := G_vis G (selected_words df max_words included) in
  (Gv, map (style pr (search_terms search_input)) (nodes Gv)).

Definition emphasized (n : node) : bool :=
  match borderWidth n with
  | Some _ => true
  | None => false
  end.

(** ** [process_text] *)

Definition is_digit (c : ascii) : bool :=
  let n := nat_of_ascii c in ((48 <=? n) && (n <=? 57))%nat.

Definition is_alpha (c : ascii) : bool :=
  let n := nat_of_ascii c in
  ((65 <=? n) && (n <=? 90) || (97 <=? n) && (n <=? 122))%nat.

(** The class [\w]: letters, digits and the underscore. *)
Definition is_word_char (c : ascii) : bool :=
  is_alpha c || is_digit c || Ascii.eqb c "_".

(** The characters of [s] that satisfy [p], in order. *)
Fixpoint keep (p : ascii -> bool) (s : string) : string :=
  match s with
  | EmptyString => EmptyString
  | String c s' => if p c then String c (keep p s') else keep p s'
  end.

Fixpoint all_chars (p : ascii -> bool) (s : string) : bool :=
  match s with
  | EmptyString => true
  | String c s' => p c && all_chars p s'
  end.

(** [re.sub(r'\d+', '', text)] *)
Definition remove_digits (text : string) : string :=
  keep (fun c => negb (is_digit c)) text.

(** [re.sub(r'[^\w\s]', '', text)] *)
Definition remove_punctuation (text : string) : string :=
  keep (fun c => is_word_char c || is_space c) text.

Definition starts_word (s : string) : bool :=
  match s with
  | EmptyString => false
  | String c _ => negb (is_space c)
  end.

(** [text.split()]: the maximal runs of characters that are not white
    space. *)
Fixpoint split (s : string) : list string :=
  match s with
  | EmptyString => []
  | String c s' =>
      if is_space c then split s'
      else if starts_word s'
           then match split s' with
                | [] => [String c EmptyString]
                | h :: t => String c h :: t
                end
           else String c EmptyString :: split s'
  end.

(** [w.isalpha()]: at least one character, and letters only. *)
Definition isalpha (w : string) : bool := truthy w && all_chars is_alpha w.

Definition custom_stopwords : list string :=
  ["dan"; "yang"; "di"; "ke"; "dari"; "ini"; "itu"; "pada"; "untuk"; "dengan";
   "penelitian"; "data"; "hasil"; "analisis"; "kesimpulan"; "sistem";
   "gambar"; "tabel"; "bab"; "jurnal"; "paper"; "skripsi"; "tesis";
   "abstract"; "abstrak"].

(** The test of the final list comprehension. *)
Definition is_clean (stop_words : list string) (w : string) : bool :=
  isalpha w && negb (mem w stop_words) && (2 <? String.length w)%nat.

Section ProcessText.

(** [nltk]'s [word_tokenize] and [stopwords.words]; [None] stands for a
    raised exception, which the two [try] blocks catch. *)
Variable word_tokenize : string -> option (list string).
Variable stopwords_words : string -> option (list string).

Definition process_text (text : string) : list string :=
  let text := remove_digits text in
  let text := remove_punctuation text in
  let text := lower text in
  let words :=
    match word_tokenize text with
    | Some ws => ws
    | None => split text
    end in
  let stop_words :=
    match stopwords_words "indonesian" with
    | Some ws => ws
    | None => []
    end in
  let stop_words := stop_words ++ custom_stopwords in
  filter (is_clean stop_words) words.

End ProcessText.

(** [value=min(40, total_words)]: the cutoff the number input starts
    with. *)
Definition default_max_words (df : list row) : Z :=
  Z.min 40 (Z.of_nat (List.length df)).

(** ** Vocabulary of the properties *)

(** The window starting at [i] pairs [words[i]] with [words[i + j]],
    and the two terms differ; [a], [b] are those two terms in either
    order. *)
Definition pair_at (words : list term) (i j : Z) (a b : term) : Prop :=
  exists x y,
    getitem words i = Ok x /\ getitem words (i + j) = Ok y /\ x <> y /\
    ((a = x /\ b = y) \/ (a = y /\ b = x)).

(** The pairs the two loops of [build_graph] go through. *)
Definition visited (words : list term) (w : Z) (a b : term) : Prop :=
  exists i j,
    0 <= i < Z.of_nat (List.length words) - w /\ 1 <= j <= w /\
    pair_at words i j a b.

(** Node keys are distinct and every neighbour is itself a node. *)
Definition well_formed (G : Graph) : Prop :=
  NoDup (nodes G) /\
  forall u ns v, In (u, ns) G -> In v ns -> In v (nodes G).

(** Non-negative on every node and summing to 1 over the nodes. *)
Definition distribution (G : Graph) (x : ScoreMap) : Prop :=
  (Ranker.total G x == 1)%Q /\
  forall u, In u (nodes G) -> (0 <= Ranker.score_of x u)%Q.

(** The node-wise distance between two score maps, as a score map. *)
Definition gap (G : Graph) (x y : ScoreMap) : ScoreMap :=
  map (fun u => (u, Qabs (Ranker.score_of x u - Ranker.score_of y u)))
      (nodes G).

(** How often [v] occurs among the neighbours [ns]. *)
Definition occurrences (v : term) (ns : list term) : Q :=
  Qsum (map (fun t => if String.eqb t v then 1%Q else 0%Q) ns).

Fixpoint Qpow (q : Q) (k : nat) : Q :=
  match k with
  | O => 1%Q
  | S k' => (q * Qpow q k')%Q
  end.

(** Every iterate lists the nodes of the graph, each with its score. *)
Definition tabulated (G : Graph) (x : ScoreMap) : Prop :=
  x = map (fun v => (v, Ranker.score_of x v)) (nodes G).

(** Row order of the sorted frame: scores do not increase. *)
Definition score_desc (r r' : term * Q) : Prop := (snd r' <= snd r)%Q.

(** Too short to be analysed: fewer than [window_size + 1] tokens, or
    fewer than six. *)
Definition too_short (w : Z) (f : upload) : Prop :=
  Z.of_nat (List.length (snd f)) < w + 1 \/
  Z.of_nat (List.length (snd f)) < 6.

(** [df.take(idx)]: the rows at the given positions. *)
Definition take (rows : list (term * Q)) (idx : list nat) : list (term * Q) :=
  flat_map (fun i => match nth_error rows i with
                     | Some r => [r]
                     | None => []
                     end) idx.

(** A frame reordered by an indexer computed from the score column. *)
Definition sort_by_key (argsort : list Q -> list nat)
    (rows : list (term * Q)) : list (term * Q) :=
  take rows (argsort (map snd rows)).

(** No white space in front. *)
Definition no_lead (s : string) : Prop :=
  match s with
  | EmptyString => True
  | String c _ => is_space c = false
  end.

(** No white space at the end. *)
Fixpoint no_trail (s : string) : Prop :=
  match s with
  | EmptyString => True
  | String c s' =>
      match s' with
      | EmptyString => is_space c = false
      | String _ _ => no_trail s'
      end
  end.

(** Every stored neighbour list is non-empty and free of repeats. *)
Definition tidy (G : Graph) : Prop :=
  forall x ns, neighbors G x = Some ns -> ns <> [] /\ NoDup ns.

(** Nothing is left to do for this file: it is stored, or it has at
    most five words. *)
Definition settled (s : session) (f : upload) : Prop :=
  has_key (fst f) (paper_data s) = true \/
  Z.of_nat (List.length (snd f)) <= 5.

(** The active key is stored, and every stored paper comes from one of
    the files [fs], of its name and with more than five words, with the
    graph of those words for the window size [w], and the scores and
    the table of that graph. *)
Definition consistent (nx_pagerank : Graph -> ScoreMap) (w : Z)
    (fs : list upload) (s : session) : Prop :=
  match active_file_key s with
  | Some k => has_key k (paper_data s) = true
  | None => paper_data s = []
  end /\
  forall name p, get_item (paper_data s) name = Some p ->
    5 < count p /\
    (exists words, In (name, words) fs /\
                   build_graph words w = Ok (graph p) /\
                   count p = Z.of_nat (List.length words)) /\
    pagerank p = nx_pagerank (graph p) /\
    df p = ranked_index (pagerank p).

(** Lower-casing leaves the character as it is. *)
Definition lower_fixed (c : ascii) : bool := Ascii.eqb (lower_ascii c) c.

(** A lower-case letter or a blank. *)
Definition plain (c : ascii) : bool :=
  is_alpha c && lower_fixed c || Ascii.eqb c " ".

(** The token list of the design's first example, its graph for window
    2, and a score map on it. *)
Definition flood_tokens : list term :=
  ["flood"; "river"; "flood"; "bridge"; "river"; "flood"].

Definition flood_graph : Graph :=
  [("flood", ["river"; "bridge"]);
   ("river", ["flood"; "bridge"]);
   ("bridge", ["river"; "flood"])].

Definition flood_scores : ScoreMap :=
  [("flood", 4 # 10); ("river", 4 # 10); ("bridge", 2 # 10)]%Q.

(** The paper that [main] stores for that token list with window 2. *)
Definition flood_paper : paper :=
  mk_paper flood_graph (Ranker.rank flood_graph)
    (ranked_index (Ranker.rank flood_graph)) 6.

(** * Properties *)

Example build_graph_flood :
  build_graph flood_tokens 2 =
  Ok [("flood", ["river"; "bridge"]);
      ("river", ["flood"; "bridge"]);
      ("bridge", ["river"; "flood"])].
Proof. reflexivity. Qed.

Example search_terms_ex :
  search_terms " Gempa, ,magnitudo ,," = ["gempa"; "magnitudo"].
Proof. reflexivity. Qed.

Example ranked_index_ex :
  ranked_index [("c", 2 # 10); ("a", 5 # 10); ("b", 3 # 10)]%Q =
  [mk_row 1 "a" (5 # 10); mk_row 2 "b" (3 # 10); mk_row 3 "c" (2 # 10)]%Q.
Proof. reflexivity. Qed.

(** ** Lists, ranges and loops *)

Lemma mem_In (u : term) (l : list term) : mem u l = true <-> In u l.
Proof.
  unfold mem. rewrite existsb_exists. split.
  - intros [x [Hx E]]. apply String.eqb_eq in E. now subst.
  - intros H. exists u. split; [assumption | apply String.eqb_refl].
Qed.

Lemma mem_false (u : term) (l : list term) : mem u l = false <-> ~ In u l.
Proof.
  rewrite <- mem_In. destruct (mem u l); split; congruence.
Qed.

Lemma py_range_In (lo hi k : Z) : In k (py_range lo hi) <-> lo <= k < hi.
Proof.
  unfold py_range. rewrite in_map_iff. split.
  - intros [n [E Hn]]. apply in_seq in Hn. lia.
  - intros H. exists (Z.to_nat (k - lo)). split; [lia | apply in_seq; lia].
Qed.

Lemma getitem_nonneg {A : Type} (l : list A) (k : Z) :
  0 <= k < Z.of_nat (List.length l) ->
  exists a, getitem l k = Ok a /\ nth_error l (Z.to_nat k) = Some a.
Proof.
  intros H. unfold getitem.
  destruct (k <? 0) eqn:E1; [lia |].
  destruct (k <? 0) eqn:E2; [lia |].
  destruct (Z.of_nat (List.length l) <=? k) eqn:E3; [lia |]. simpl.
  destruct (nth_error l (Z.to_nat k)) as [a |] eqn:E.
  - now exists a.
  - apply nth_error_None in E. lia.
Qed.

Lemma getitem_In {A : Type} (l : list A) (k : Z) (a : A) :
  getitem l k = Ok a -> In a l.
Proof.
  unfold getitem.
  destruct (_ || _); [discriminate |].
  destruct (nth_error l _) as [b |] eqn:E; [| discriminate].
  intros H. injection H as ->. eapply nth_error_In; eassumption.
Qed.

(** Loop rule: an invariant indexed by the iterations done so far. *)
Lemma for_each_rule {S : Type} (Inv : list Z -> S -> Prop)
    (body : Z -> S -> result S) (l : list Z) :
  (forall d k s, In k l -> Inv d s ->
                 exists s', body k s = Ok s' /\ Inv (d ++ [k]) s') ->
  forall done s, Inv done s ->
  exists s', for_each l body s = Ok s' /\ Inv (done ++ l) s'.
Proof.
  induction l as [| k l IH]; intros Hbody done s Hs.
  - exists s. rewrite app_nil_r. now split.
  - destruct (Hbody done k s (or_introl eq_refl) Hs) as [s1 [E1 H1]].
    simpl. rewrite E1.
    destruct (IH (fun d k' s' Hk => Hbody d k' s' (or_intror Hk))
                 (done ++ [k]) s1 H1) as [s2 [E2 H2]].
    exists s2. split; [assumption |].
    now rewrite <- app_assoc in H2.
Qed.

(** ** Graph updates *)

Lemma has_node_neighbors (G : Graph) (u : term) :
  has_node G u = true <-> neighbors G u <> None.
Proof.
  unfold has_node, nodes. induction G as [| [n ns] G IH]; simpl.
  - split; [discriminate | congruence].
  - rewrite (String.eqb_sym u n). destruct (String.eqb n u); simpl.
    + split; [discriminate | reflexivity].
    + exact IH.
Qed.

Lemma neighbors_app (G H : Graph) (a : term) :
  neighbors (G ++ H) a =
  match neighbors G a with
  | Some ns => Some ns
  | None => neighbors H a
  end.
Proof.
  induction G as [| [n ns] G IH]; simpl; [reflexivity |].
  destruct (String.eqb n a); [reflexivity | exact IH].
Qed.

Lemma neighbors_add_node (G : Graph) (u a : term) :
  neighbors (add_node G u) a =
  match neighbors G a with
  | Some ns => Some ns
  | None => if String.eqb u a then Some [] else None
  end.
Proof.
  unfold add_node. destruct (has_node G u) eqn:E.
  - apply has_node_neighbors in E.
    destruct (neighbors G a) eqn:Ea; [reflexivity |].
    destruct (String.eqb_spec u a); [subst; congruence | reflexivity].
  - rewrite neighbors_app. simpl. reflexivity.
Qed.

Lemma neighbors_link (G : Graph) (u v a : term) :
  neighbors (link G u v) a =
  if String.eqb a u
  then option_map (fun ns => if mem v ns then ns else ns ++ [v]) (neighbors G u)
  else neighbors G a.
Proof.
  induction G as [| [n ns] G IH]; simpl.
  - now destruct (String.eqb a u).
  - destruct (String.eqb_spec n u) as [-> | Hnu]; simpl.
    + rewrite (String.eqb_sym a u).
      destruct (String.eqb u a); reflexivity.
    + rewrite IH. destruct (String.eqb_spec n a) as [-> | Hna].
      * destruct (String.eqb_spec a u); [contradiction | reflexivity].
      * reflexivity.
Qed.

Lemma mem_snoc (b v : term) (ns : list term) :
  mem b (if mem v ns then ns else ns ++ [v]) = mem b ns || String.eqb b v.
Proof.
  destruct (mem v ns) eqn:E.
  - destruct (String.eqb_spec b v) as [-> | _].
    + rewrite E. reflexivity.
    + now rewrite orb_false_r.
  - unfold mem. rewrite existsb_app. simpl. now rewrite orb_false_r.
Qed.

Lemma has_edge_add_node (G : Graph) (u a b : term) :
  has_edge (add_node G u) a b = has_edge G a b.
Proof.
  unfold has_edge. rewrite neighbors_add_node.
  destruct (neighbors G a); [reflexivity |].
  now destruct (String.eqb u a).
Qed.

Lemma is_node_add_node (G : Graph) (u a : term) :
  neighbors G a <> None \/ a = u <-> neighbors (add_node G u) a <> None.
Proof.
  rewrite neighbors_add_node.
  destruct (neighbors G a).
  - split; [discriminate | left; discriminate].
  - destruct (String.eqb_spec u a) as [-> | Hn].
    + split; [discriminate | now right].
    + split; [intros [H | H]; congruence | congruence].
Qed.

Lemma is_node_link (G : Graph) (u v a : term) :
  neighbors G a <> None <-> neighbors (link G u v) a <> None.
Proof.
  rewrite neighbors_link.
  destruct (String.eqb_spec a u) as [-> | Hn]; [| reflexivity].
  destruct (neighbors G u); simpl; split; congruence.
Qed.

Lemma has_edge_link (G : Graph) (u v a b : term) :
  neighbors G u <> None ->
  has_edge (link G u v) a b = true <->
  has_edge G a b = true \/ (a = u /\ b = v).
Proof.
  intros Hu. unfold has_edge. rewrite neighbors_link.
  destruct (String.eqb_spec a u) as [-> | Hn].
  - destruct (neighbors G u) as [ns |]; [| congruence]. simpl.
    rewrite mem_snoc, orb_true_iff, String.eqb_eq. intuition.
  - intuition.
Qed.

(** The edges after [G.add_edge(u, v)]. *)
Lemma has_edge_add_edge (G : Graph) (u v a b : term) :
  has_edge (add_edge G u v) a b = true <->
  has_edge G a b = true \/ (a = u /\ b = v) \/ (a = v /\ b = u).
Proof.
  unfold add_edge.
  rewrite has_edge_link.
  - rewrite has_edge_link.
    + rewrite !has_edge_add_node. tauto.
    + apply is_node_add_node. left. apply is_node_add_node. now right.
  - apply is_node_link. apply is_node_add_node. now right.
Qed.

(** ** The co-occurrence graph *)

Lemma inner_loop (words : list term) (w i : Z) (G : Graph) :
  0 <= i < Z.of_nat (List.length words) - w ->
  exists G',
    for_each (py_range 1 (w + 1))
      (fun j G =>
         a <- getitem words i ;;
         b <- getitem words (i + j) ;;
         if negb (String.eqb a b) then Ok (add_edge G a b) else Ok G) G
    = Ok G' /\
    forall a b, has_edge G' a b = true <->
                has_edge G a b = true \/
                exists j, 1 <= j <= w /\ pair_at words i j a b.
Proof.
  intros Hi.
  destruct (for_each_rule
    (fun d G' => forall a b, has_edge G' a b = true <->
       has_edge G a b = true \/ exists j, In j d /\ pair_at words i j a b)
    (fun j G =>
         a <- getitem words i ;;
         b <- getitem words (i + j) ;;
         if negb (String.eqb a b) then Ok (add_edge G a b) else Ok G)
    (py_range 1 (w + 1))) with (done := @nil Z) (s := G) as [G' [E H]].
  - intros d j G1 Hj Inv. apply py_range_In in Hj.
    destruct (getitem_nonneg words i) as [x [Ex _]]; [lia |].
    destruct (getitem_nonneg words (i + j)) as [y [Ey _]]; [lia |].
    rewrite Ex, Ey. simpl.
    destruct (String.eqb_spec x y) as [Exy | Nxy]; simpl.
    + exists G1. split; [reflexivity |].
      intros a b. rewrite Inv. split.
      * intros [H | [j' [Hj' P]]]; [now left | right].
        exists j'. split; [apply in_or_app; now left | assumption].
      * intros [H | [j' [Hj' P]]]; [now left |].
        apply in_app_or in Hj'. destruct Hj' as [Hj' | [<- | []]].
        -- right. now exists j'.
        -- destruct P as [x' [y' [Ex' [Ey' [N _]]]]]. congruence.
    + exists (add_edge G1 x y). split; [reflexivity |].
      intros a b. rewrite has_edge_add_edge, Inv. split.
      * intros [[H | [j' [Hj' P]]] | H]; [now left | right | right].
        -- exists j'. split; [apply in_or_app; now left | assumption].
        -- exists j. split; [apply in_or_app; right; now left |].
           exists x, y. tauto.
      * intros [H | [j' [Hj' P]]]; [left; now left |].
        apply in_app_or in Hj'. destruct Hj' as [Hj' | [<- | []]].
        -- left. right. now exists j'.
        -- destruct P as [x' [y' [Ex' [Ey' [N P]]]]].
           assert (x' = x) by congruence. assert (y' = y) by congruence.
           subst. now right.
  - intros a b. split; [now left |].
    intros [H | [j [[] _]]]. assumption.
  - exists G'. split; [exact E |].
    intros a b. rewrite H. simpl.
    split; (intros [H1 | [j [Hj P]]]; [now left | right; exists j]).
    + apply py_range_In in Hj. split; [lia | assumption].
    + split; [apply py_range_In; lia | assumption].
Qed.

(** [build_graph] returns for every token list and every window size,
    and its edges are exactly the visited pairs. *)
Lemma build_graph_edges (words : list term) (w : Z) :
  exists G,
    build_graph words w = Ok G /\
    forall a b, has_edge G a b = true <-> visited words w a b.
Proof.
  unfold build_graph.
  destruct (for_each_rule
    (fun d G => forall a b, has_edge G a b = true <->
       exists i j, In i d /\ 1 <= j <= w /\ pair_at words i j a b)
    (fun i G =>
       for_each (py_range 1 (w + 1))
         (fun j G =>
            a <- getitem words i ;;
            b <- getitem words (i + j) ;;
            if negb (String.eqb a b) then Ok (add_edge G a b) else Ok G)
         G)
    (py_range 0 (Z.of_nat (List.length words) - w)))
    with (done := @nil Z) (s := empty_graph) as [G [E H]].
  - intros d i G1 Hi Inv. apply py_range_In in Hi.
    destruct (inner_loop words w i G1) as [G' [E' H']]; [lia |].
    exists G'. split; [exact E' |].
    intros a b. rewrite H', Inv. split.
    + intros [[i' [j [Hi' P]]] | [j P]].
      * exists i', j. split; [apply in_or_app; now left | exact P].
      * exists i, j. split; [apply in_or_app; right; now left | exact P].
    + intros [i' [j [Hi' P]]].
      apply in_app_or in Hi'. destruct Hi' as [Hi' | [<- | []]].
      * left. now exists i', j.
      * right. now exists j.
  - intros a b. split; [discriminate |]. now intros [i [j [[] _]]].
  - exists G. split; [exact E |].
    intros a b. rewrite H. simpl. unfold visited.
    split; intros [i [j [Hi P]]]; exists i, j.
    + apply py_range_In in Hi. split; [lia | exact P].
    + split; [apply py_range_In; lia | tauto].
Qed.

Lemma for_each_skip {S : Type} (body : Z -> S -> result S) (l : list Z) (s : S) :
  (forall k, In k l -> body k s = Ok s) -> for_each l body s = Ok s.
Proof.
  induction l as [| k l IH]; intros H; simpl; [reflexivity |].
  rewrite (H k (or_introl eq_refl)). apply IH.
  intros k' Hk'. apply H. now right.
Qed.

Lemma py_range_empty (lo hi : Z) : hi <= lo -> py_range lo hi = [].
Proof.
  intros H. unfold py_range.
  replace (Z.to_nat (hi - lo)) with O by lia. reflexivity.
Qed.

(** C1 (as the code has it): whenever the whole window that starts at
    position [i] lies inside the token list ([i + w < len(words)]),
    every offset [j] from 1 to [w] links [words[i]] and [words[i + j]],
    in both directions, unless the two terms are equal. *)
Theorem build_graph_links_full_windows
    (words : list term) (w i j : Z) (a b : term) :
  0 <= i -> i + w < Z.of_nat (List.length words) -> 1 <= j <= w ->
  getitem words i = Ok a -> getitem words (i + j) = Ok b -> a <> b ->
  exists G, build_graph words w = Ok G /\
            has_edge G a b = true /\ has_edge G b a = true.
Proof.
  intros Hi Hw Hj Ea Eb Hab.
  destruct (build_graph_edges words w) as [G [E H]].
  exists G. split; [exact E |].
  split; apply H; exists i, j; (split; [lia |]); (split; [lia |]);
    exists a, b; tauto.
Qed.

Lemma build_graph_links_full_windows_witness :
  exists G, build_graph flood_tokens 2 = Ok G /\
            has_edge G "river" "bridge" = true /\
            has_edge G "bridge" "river" = true.
Proof.
  apply (build_graph_links_full_windows flood_tokens 2 1 2 "river" "bridge");
    try reflexivity; try discriminate; simpl; lia.
Defined.

(** C1, as stated, fails on the last positions: in [a; b; c] with window
    2 the terms at positions 1 and 2 are one apart, yet no edge links
    them, because the outer loop stops at [len(words) - window_size]. *)
Lemma build_graph_skips_tail_pairs :
  getitem ["a"; "b"; "c"] 1 = Ok "b" /\
  getitem ["a"; "b"; "c"] (1 + 1) = Ok "c" /\
  1 <= 1 <= 2 /\ "b" <> "c" /\
  exists G, build_graph ["a"; "b"; "c"] 2 = Ok G /\
            has_edge G "b" "c" = false.
Proof.
  repeat split; try lia; try discriminate.
  eexists. split; reflexivity.
Qed.

(** C3 (as the code has it): a window size of 0 or less raises nothing:
    at every position of the outer loop the inner loop
    [range(1, window_size + 1)] is empty, so no word is indexed, no
    edge is added, and the empty graph is returned. *)
Theorem build_graph_nonpositive_window (words : list term) (w : Z) :
  w <= 0 -> build_graph words w = Ok empty_graph.
Proof.
  intros Hw. unfold build_graph. apply for_each_skip.
  intros i _. rewrite py_range_empty by lia. reflexivity.
Qed.

Lemma build_graph_nonpositive_window_witness :
  build_graph ["a"; "b"; "c"] (-1) = Ok empty_graph.
Proof.
  apply (build_graph_nonpositive_window ["a"; "b"; "c"] (-1)). lia.
Defined.

(** C3, as stated, fails: window size 0 is accepted and yields the empty
    graph instead of an error. *)
Lemma build_graph_accepts_zero_window :
  build_graph ["a"; "b"] 0 = Ok empty_graph /\
  forall e, build_graph ["a"; "b"] 0 <> Raise e.
Proof.
  split; [reflexivity | discriminate].
Qed.

(** C5: for a window size of at least 1 the built graph has no
    self-loop, and the two ends of every edge are the terms at two
    positions of the token list that are at most [w] apart. *)
Theorem build_graph_no_self_loop_within_window (words : list term) (w : Z) :
  1 <= w ->
  exists G, build_graph words w = Ok G /\
    (forall a, has_edge G a a = false) /\
    (forall a b, has_edge G a b = true ->
       a <> b /\
       exists i j, 0 <= i /\ 1 <= j <= w /\
         ((getitem words i = Ok a /\ getitem words (i + j) = Ok b) \/
          (getitem words i = Ok b /\ getitem words (i + j) = Ok a))).
Proof.
  intros _.
  destruct (build_graph_edges words w) as [G [E H]].
  exists G. split; [exact E |].
  assert (Hedge : forall a b, has_edge G a b = true ->
       a <> b /\
       exists i j, 0 <= i /\ 1 <= j <= w /\
         ((getitem words i = Ok a /\ getitem words (i + j) = Ok b) \/
          (getitem words i = Ok b /\ getitem words (i + j) = Ok a))).
  { intros a b Hab. apply H in Hab.
    destruct Hab as [i [j [Hi [Hj [x [y [Ex [Ey [N P]]]]]]]]].
    split.
    - destruct P as [[-> ->] | [-> ->]]; congruence.
    - exists i, j. split; [lia |]. split; [lia |].
      destruct P as [[-> ->] | [-> ->]]; tauto. }
  split; [| exact Hedge].
  intros a. destruct (has_edge G a a) eqn:Ea; [| reflexivity].
  destruct (Hedge a a Ea) as [N _]. congruence.
Qed.

Lemma build_graph_no_self_loop_within_window_witness :
  exists G, build_graph ["a"; "a"; "b"; "a"] 2 = Ok G /\
    (forall a, has_edge G a a = false) /\
    (forall a b, has_edge G a b = true ->
       a <> b /\
       exists i j, 0 <= i /\ 1 <= j <= 2 /\
         ((getitem ["a"; "a"; "b"; "a"] i = Ok a /\
           getitem ["a"; "a"; "b"; "a"] (i + j) = Ok b) \/
          (getitem ["a"; "a"; "b"; "a"] i = Ok b /\
           getitem ["a"; "a"; "b"; "a"] (i + j) = Ok a))).
Proof.
  apply (build_graph_no_self_loop_within_window ["a"; "a"; "b"; "a"] 2). lia.
Defined.

(** C8 (as the code has it): on flood, river, flood, bridge, river,
    flood with window 2 the graph links flood and river, river and
    bridge, and also bridge and flood, which are next to each other at
    positions 2 and 3; no term is linked to itself. *)
Theorem build_graph_flood_edges :
  exists G, build_graph flood_tokens 2 = Ok G /\
    has_edge G "flood" "river" = true /\
    has_edge G "river" "bridge" = true /\
    has_edge G "bridge" "flood" = true /\
    has_edge G "flood" "flood" = false /\
    forallb (fun u => negb (has_edge G u u)) (nodes G) = true.
Proof.
  eexists. split; [reflexivity |]. repeat split.
Qed.

(** C8, as stated, fails: the graph does contain the bridge-flood edge. *)
Lemma build_graph_flood_has_bridge_flood :
  exists G, build_graph flood_tokens 2 = Ok G /\
    getitem flood_tokens 2 = Ok "flood" /\
    getitem flood_tokens (2 + 1) = Ok "bridge" /\
    has_edge G "bridge" "flood" = true /\
    has_edge G "flood" "bridge" = true.
Proof.
  eexists. split; [reflexivity |]. repeat split.
Qed.

(** ** Invariants of built graphs *)

Lemma nodes_link (G : Graph) (u v : term) : nodes (link G u v) = nodes G.
Proof.
  unfold nodes. induction G as [| [n ns] G IH]; simpl; [reflexivity |].
  destruct (String.eqb n u); simpl; [reflexivity | now rewrite IH].
Qed.

Lemma nodes_add_node (G : Graph) (u x : term) :
  In x (nodes (add_node G u)) <-> In x (nodes G) \/ x = u.
Proof.
  unfold add_node. destruct (has_node G u) eqn:E.
  - apply mem_In in E. split; [now left | intros [H | ->]; assumption].
  - unfold nodes. rewrite map_app, in_app_iff. simpl. intuition.
Qed.

Lemma In_link (G : Graph) (u v x : term) (ns : list term) :
  In (x, ns) (link G u v) ->
  exists ns0, In (x, ns0) G /\ forall t, In t ns -> In t ns0 \/ t = v.
Proof.
  induction G as [| [n ms] G IH]; simpl; [contradiction |].
  destruct (String.eqb n u); simpl.
  - intros [H | H].
    + injection H as -> <-. exists ms. split; [now left |].
      intros t Ht. destruct (mem v ms); [now left |].
      apply in_app_or in Ht. destruct Ht as [Ht | [<- | []]]; auto.
    + exists ns. split; [now right | auto].
  - intros [H | H].
    + injection H as -> ->. exists ns. split; [now left | auto].
    + destruct (IH H) as [ns0 [H0 H1]]. exists ns0. split; [now right | auto].
Qed.

Lemma well_formed_link (G : Graph) (u v : term) :
  well_formed G -> In v (nodes G) -> well_formed (link G u v).
Proof.
  intros [Hn Ha] Hv. split.
  - now rewrite nodes_link.
  - intros x ns t Hx Ht. rewrite nodes_link.
    destruct (In_link G u v x ns Hx) as [ns0 [H0 H1]].
    destruct (H1 t Ht) as [H | ->]; [eapply Ha; eassumption | assumption].
Qed.

Lemma well_formed_add_node (G : Graph) (u : term) :
  well_formed G -> well_formed (add_node G u).
Proof.
  intros [Hn Ha]. split.
  - unfold add_node. destruct (has_node G u) eqn:E; [assumption |].
    apply mem_false in E. unfold nodes in *. rewrite map_app. simpl.
    apply NoDup_rev in Hn. rewrite <- (rev_involutive (map fst G ++ [u])).
    apply NoDup_rev. rewrite rev_app_distr. simpl.
    constructor; [| assumption]. now rewrite <- in_rev.
  - intros x ns t Hx Ht. apply nodes_add_node.
    unfold add_node in Hx. destruct (has_node G u).
    + left. eapply Ha; eassumption.
    + apply in_app_or in Hx. destruct Hx as [Hx | [Hx | []]].
      * left. eapply Ha; eassumption.
      * injection Hx as <- <-. contradiction.
Qed.

Lemma well_formed_add_edge (G : Graph) (a b : term) :
  well_formed G -> well_formed (add_edge G a b).
Proof.
  intros H. unfold add_edge.
  apply well_formed_link.
  - apply well_formed_link.
    + now apply well_formed_add_node, well_formed_add_node.
    + apply nodes_add_node. now right.
  - rewrite nodes_link. apply nodes_add_node. left.
    apply nodes_add_node. now right.
Qed.

Lemma nodes_add_edge (G : Graph) (a b x : term) :
  In x (nodes (add_edge G a b)) <-> In x (nodes G) \/ x = a \/ x = b.
Proof.
  unfold add_edge. rewrite !nodes_link, !nodes_add_node. tauto.
Qed.

Lemma for_each_preserves {S : Type} (P : S -> Prop)
    (body : Z -> S -> result S) (l : list Z) :
  (forall k s s', In k l -> P s -> body k s = Ok s' -> P s') ->
  forall s s', P s -> for_each l body s = Ok s' -> P s'.
Proof.
  induction l as [| k l IH]; intros Hbody s s' Hs; simpl.
  - intros E. injection E as <-. exact Hs.
  - destruct (body k s) as [s1 |] eqn:E1; [| discriminate].
    apply IH.
    + intros k' t t' Hk'. apply Hbody. now right.
    + eapply Hbody; [now left | exact Hs | exact E1].
Qed.

(** Induction over the edges [build_graph] adds. *)
Lemma build_graph_ind (P : Graph -> Prop) (words : list term) (w : Z) :
  P empty_graph ->
  (forall G a b, P G -> In a words -> In b words -> a <> b ->
                 P (add_edge G a b)) ->
  forall G, build_graph words w = Ok G -> P G.
Proof.
  intros H0 Hadd G. unfold build_graph.
  apply for_each_preserves; [| exact H0].
  intros i G1 G2 _ H1. apply for_each_preserves; [| exact H1].
  intros j G3 G4 _ H3.
  destruct (getitem words i) as [a |] eqn:Ea; [| discriminate].
  destruct (getitem words (i + j)) as [b |] eqn:Eb; [| discriminate].
  simpl. destruct (String.eqb_spec a b) as [E | N]; simpl.
  - intros E'. injection E' as <-. exact H3.
  - intros E'. injection E' as <-.
    apply Hadd; eauto using getitem_In.
Qed.

Lemma build_graph_well_formed (words : list term) (w : Z) (G : Graph) :
  build_graph words w = Ok G -> well_formed G.
Proof.
  apply build_graph_ind.
  - split; [constructor | intros u ns v []].
  - intros G' a b H _ _ _. now apply well_formed_add_edge.
Qed.

Lemma build_graph_nodes (words : list term) (w : Z) (G : Graph) :
  build_graph words w = Ok G -> forall u, In u (nodes G) -> In u words.
Proof.
  apply (build_graph_ind (fun G => forall u, In u (nodes G) -> In u words)).
  - intros u [].
  - intros G' a b H Ha Hb _ u Hu. apply nodes_add_edge in Hu.
    destruct Hu as [Hu | [-> | ->]]; auto.
Qed.

(** ** Sums of scores *)

Section Sums.

Local Open Scope Q_scope.

Lemma Qsum_app (l l' : list Q) : Qsum (l ++ l') == Qsum l + Qsum l'.
Proof.
  induction l as [| q l IH]; simpl; [ring | rewrite IH; ring].
Qed.

Lemma Qsum_map_ext {A : Type} (f g : A -> Q) (l : list A) :
  (forall a, In a l -> f a == g a) -> Qsum (map f l) == Qsum (map g l).
Proof.
  induction l as [| a l IH]; intros H; simpl; [reflexivity |].
  rewrite (H a (or_introl eq_refl)), IH; [reflexivity |].
  intros b Hb. apply H. now right.
Qed.

Lemma Qsum_map_plus {A : Type} (f g : A -> Q) (l : list A) :
  Qsum (map (fun a => f a + g a) l) == Qsum (map f l) + Qsum (map g l).
Proof.
  induction l as [| a l IH]; simpl; [ring | rewrite IH; ring].
Qed.

Lemma Qsum_map_scale {A : Type} (c : Q) (f : A -> Q) (l : list A) :
  Qsum (map (fun a => c * f a) l) == c * Qsum (map f l).
Proof.
  induction l as [| a l IH]; simpl; [ring | rewrite IH; ring].
Qed.

Lemma Qsum_map_const {A : Type} (c : Q) (l : list A) :
  Qsum (map (fun _ => c) l) == inject_Z (Z.of_nat (List.length l)) * c.
Proof.
  induction l as [| a l IH].
  - simpl. ring.
  - change (List.length (a :: l)) with (S (List.length l)).
    rewrite Nat2Z.inj_succ. unfold Z.succ. rewrite inject_Z_plus.
    simpl Qsum. rewrite IH. simpl (inject_Z 1). ring.
Qed.

Lemma Qsum_nonneg (l : list Q) : (forall q, In q l -> 0 <= q) -> 0 <= Qsum l.
Proof.
  induction l as [| q l IH]; intros H; simpl; [apply Qle_refl |].
  apply (Qplus_le_compat 0 q 0 (Qsum l)).
  - apply H. now left.
  - apply IH. intros q' Hq'. apply H. now right.
Qed.

(** Summing, over distinct keys, the entries filed under each key adds
    up every entry whose key is among them. *)
Lemma Qsum_indicator (k : term) (q : Q) (l : list term) :
  NoDup l -> In k l ->
  Qsum (map (fun v => if String.eqb k v then q else 0) l) == q.
Proof.
  induction l as [| v l IH]; intros Hn Hk; [contradiction |].
  inversion Hn as [| ? ? Hv Hl]; subst. simpl.
  destruct (String.eqb_spec k v) as [-> | N].
  - rewrite (Qsum_map_ext _ (fun _ => 0)).
    + rewrite Qsum_map_const. ring.
    + intros a Ha. destruct (String.eqb_spec v a); [subst; contradiction |].
      reflexivity.
  - destruct Hk as [-> | Hk]; [congruence |].
    rewrite IH by assumption. ring.
Qed.

Lemma Qsum_by_key (keys : list term) (cs : list (term * Q)) :
  NoDup keys -> (forall c, In c cs -> In (fst c) keys) ->
  Qsum (map (fun v =>
               Qsum (map snd (filter (fun c => String.eqb (fst c) v) cs)))
            keys)
  == Qsum (map snd cs).
Proof.
  intros Hn. induction cs as [| c cs IH]; intros Hc.
  - simpl. rewrite Qsum_map_const. ring.
  - rewrite (Qsum_map_ext _
      (fun v => (if String.eqb (fst c) v then snd c else 0)
                + Qsum (map snd
                          (filter (fun c' => String.eqb (fst c') v) cs)))).
    + rewrite Qsum_map_plus, IH, Qsum_indicator.
      * reflexivity.
      * assumption.
      * apply Hc. now left.
      * intros c' Hc'. apply Hc. now right.
    + intros v _. cbn [filter]. destruct (String.eqb (fst c) v).
      * reflexivity.
      * symmetry. apply Qplus_0_l.
Qed.

Lemma get_map (f : term -> Q) (l : list term) (v : term) (d : Q) :
  In v l -> get (map (fun u => (u, f u)) l) v d = f v.
Proof.
  induction l as [| u l IH]; intros H; [contradiction |]. simpl.
  destruct (String.eqb_spec u v) as [-> | N]; [reflexivity |].
  destruct H as [-> | H]; [congruence | now apply IH].
Qed.

End Sums.

(** ** The ranker keeps a probability distribution *)

Section RankerFacts.

Local Open Scope Q_scope.

Lemma length_nodes (G : Graph) : List.length (nodes G) = List.length G.
Proof. unfold nodes. apply length_map. Qed.

Lemma size_nonzero (G : Graph) : G <> [] -> ~ Ranker.size G == 0.
Proof.
  intros HG. unfold Ranker.size. destruct G as [| e G]; [congruence |].
  change 0 with (inject_Z 0). rewrite inject_Z_injective.
  simpl List.length. lia.
Qed.

Lemma size_nonneg (G : Graph) : 0 <= Ranker.size G.
Proof.
  unfold Ranker.size. change 0 with (inject_Z 0).
  rewrite <- Zle_Qle. lia.
Qed.

Lemma degree_nonneg (ns : list term) : 0 <= Ranker.degree ns.
Proof.
  unfold Ranker.degree. change 0 with (inject_Z 0).
  rewrite <- Zle_Qle. lia.
Qed.

Lemma Qdiv_nonneg (p q : Q) : 0 <= p -> 0 <= q -> 0 <= p / q.
Proof.
  intros Hp Hq. unfold Qdiv. apply Qmult_le_0_compat; [assumption |].
  now apply Qinv_le_0_compat.
Qed.

Lemma score_of_step (G : Graph) (x : ScoreMap) (v : term) :
  In v (nodes G) ->
  Ranker.score_of (Ranker.step G x) v =
  (1 - Ranker.damping) / Ranker.size G
  + Ranker.damping
    * (Ranker.received G x v + Ranker.dangling G x / Ranker.size G).
Proof.
  intros Hv. unfold Ranker.score_of, Ranker.step.
  now rewrite get_map.
Qed.

Lemma score_of_initial (G : Graph) (v : term) :
  In v (nodes G) ->
  Ranker.score_of (Ranker.initial G) v = 1 / Ranker.size G.
Proof.
  intros Hv. unfold Ranker.score_of, Ranker.initial.
  now rewrite get_map.
Qed.

(** A node with neighbours hands out exactly its score. *)
Lemma shares_sum (G : Graph) (x : ScoreMap) :
  Qsum (map snd (Ranker.shares G x)) ==
  Qsum (map (fun e => match snd e with
                      | [] => 0
                      | _ :: _ => Ranker.score_of x (fst e)
                      end) G).
Proof.
  unfold Ranker.shares. induction G as [| e G IH]; [reflexivity |].
  simpl flat_map. rewrite map_app, Qsum_app, IH, map_map. simpl.
  apply Qplus_comp; [| reflexivity].
  rewrite Qsum_map_const. destruct (snd e) as [| t ns]; [simpl; ring |].
  unfold Ranker.degree. field.
  change 0 with (inject_Z 0). rewrite inject_Z_injective.
  simpl List.length. lia.
Qed.

Lemma shares_targets (G : Graph) (x : ScoreMap) :
  well_formed G ->
  forall c, In c (Ranker.shares G x) -> In (fst c) (nodes G).
Proof.
  intros [_ Hw] c Hc. unfold Ranker.shares in Hc.
  apply in_flat_map in Hc. destruct Hc as [[u ns] [He Hc]].
  apply in_map_iff in Hc. destruct Hc as [v [<- Hv]]. simpl in *.
  eapply Hw; eassumption.
Qed.

Lemma received_total (G : Graph) (x : ScoreMap) :
  well_formed G ->
  Qsum (map (Ranker.received G x) (nodes G))
  == Qsum (map snd (Ranker.shares G x)).
Proof.
  intros Hw. unfold Ranker.received.
  apply Qsum_by_key; [apply Hw | now apply shares_targets].
Qed.

Lemma mass_split (G : Graph) (x : ScoreMap) :
  Qsum (map (fun e => match snd e with
                      | [] => 0
                      | _ :: _ => Ranker.score_of x (fst e)
                      end) G)
  + Ranker.dangling G x
  == Ranker.total G x.
Proof.
  unfold Ranker.dangling, Ranker.total, nodes.
  rewrite <- Qsum_map_plus, map_map.
  apply Qsum_map_ext. intros e _. destruct (snd e); ring.
Qed.

(** One iteration keeps the total: the damped mass that is handed out
    or redistributed plus the uniform share. *)
Lemma step_total (G : Graph) (x : ScoreMap) :
  well_formed G -> G <> [] ->
  Ranker.total G (Ranker.step G x)
  == (1 - Ranker.damping) + Ranker.damping * Ranker.total G x.
Proof.
  intros Hw HG. pose proof (size_nonzero G HG) as HN.
  unfold Ranker.total at 1.
  rewrite (Qsum_map_ext _
    (fun v => ((1 - Ranker.damping) / Ranker.size G
               + Ranker.damping * Ranker.dangling G x / Ranker.size G)
              + Ranker.damping * Ranker.received G x v)).
  - rewrite Qsum_map_plus, Qsum_map_const, Qsum_map_scale.
    rewrite received_total, shares_sum by assumption.
    rewrite <- mass_split, length_nodes.
    fold (Ranker.size G). field. exact HN.
  - intros v Hv. rewrite score_of_step by assumption. field. exact HN.
Qed.

Lemma damping_range : 0 <= Ranker.damping /\ 0 <= 1 - Ranker.damping.
Proof. split; discriminate. Qed.

Lemma received_nonneg (G : Graph) (x : ScoreMap) (v : term) :
  (forall u, In u (nodes G) -> 0 <= Ranker.score_of x u) ->
  0 <= Ranker.received G x v.
Proof.
  intros Hx. unfold Ranker.received. apply Qsum_nonneg.
  intros q Hq. apply in_map_iff in Hq. destruct Hq as [c [<- Hc]].
  apply filter_In in Hc. destruct Hc as [Hc _].
  unfold Ranker.shares in Hc. apply in_flat_map in Hc.
  destruct Hc as [e [He Hc]]. apply in_map_iff in Hc.
  destruct Hc as [t [<- _]]. simpl.
  apply Qdiv_nonneg; [| apply degree_nonneg].
  apply Hx. unfold nodes. now apply in_map.
Qed.

Lemma dangling_nonneg (G : Graph) (x : ScoreMap) :
  (forall u, In u (nodes G) -> 0 <= Ranker.score_of x u) ->
  0 <= Ranker.dangling G x.
Proof.
  intros Hx. unfold Ranker.dangling. apply Qsum_nonneg.
  intros q Hq. apply in_map_iff in Hq. destruct Hq as [e [<- He]].
  destruct (snd e); [| apply Qle_refl].
  apply Hx. unfold nodes. now apply in_map.
Qed.

Lemma initial_distribution (G : Graph) :
  G <> [] -> distribution G (Ranker.initial G).
Proof.
  intros HG. pose proof (size_nonzero G HG) as HN. split.
  - unfold Ranker.total.
    rewrite (Qsum_map_ext _ (fun _ => 1 / Ranker.size G)).
    + rewrite Qsum_map_const, length_nodes. fold (Ranker.size G).
      field. exact HN.
    + intros v Hv. now rewrite score_of_initial.
  - intros u Hu. rewrite score_of_initial by assumption.
    apply Qdiv_nonneg; [discriminate | apply size_nonneg].
Qed.

Lemma step_distribution (G : Graph) (x : ScoreMap) :
  well_formed G -> G <> [] ->
  distribution G x -> distribution G (Ranker.step G x).
Proof.
  intros Hw HG [Ht Hx]. split.
  - rewrite step_total, Ht by assumption. ring.
  - intros u Hu. rewrite score_of_step by assumption.
    destruct damping_range as [Hd Hd'].
    apply (Qplus_le_compat 0 _ 0 _).
    + apply Qdiv_nonneg; [assumption | apply size_nonneg].
    + apply Qmult_le_0_compat; [assumption |].
      apply (Qplus_le_compat 0 _ 0 _).
      * now apply received_nonneg.
      * apply Qdiv_nonneg; [now apply dangling_nonneg | apply size_nonneg].
Qed.

Lemma iterate_distribution (G : Graph) (fuel : nat) (x : ScoreMap) :
  well_formed G -> G <> [] ->
  distribution G x -> distribution G (Ranker.iterate G fuel x).
Proof.
  intros Hw HG. revert x. induction fuel as [| fuel IH]; intros x Hx.
  - exact Hx.
  - simpl. destruct (Ranker.converged _ _).
    + now apply step_distribution.
    + apply IH. now apply step_distribution.
Qed.

Lemma tabulated_map (G : Graph) (f : term -> Q) :
  tabulated G (map (fun v => (v, f v)) (nodes G)).
Proof.
  unfold tabulated. apply map_ext_in. intros v Hv.
  unfold Ranker.score_of. now rewrite get_map.
Qed.

Lemma iterate_tabulated (G : Graph) (fuel : nat) (x : ScoreMap) :
  tabulated G x -> tabulated G (Ranker.iterate G fuel x).
Proof.
  revert x. induction fuel as [| fuel IH]; intros x Hx; [exact Hx |].
  simpl. destruct (Ranker.converged _ _).
  - apply tabulated_map.
  - apply IH, tabulated_map.
Qed.

Lemma rank_tabulated (G : Graph) : tabulated G (Ranker.rank G).
Proof. apply iterate_tabulated, tabulated_map. Qed.

Lemma rank_distribution (G : Graph) :
  well_formed G -> G <> [] -> distribution G (Ranker.rank G).
Proof.
  intros Hw HG. apply iterate_distribution; try assumption.
  now apply initial_distribution.
Qed.

End RankerFacts.

Section RankerClaims.

Local Open Scope Q_scope.

Lemma tabulated_columns (l : list term) (f : term -> Q) (x : ScoreMap) :
  x = map (fun v => (v, f v)) l -> map fst x = l /\ map snd x = map f l.
Proof.
  intros ->. rewrite !map_map. simpl. split; [apply map_id | reflexivity].
Qed.

(** C6 (on graphs with at least one node): the score map of a built
    graph has exactly the graph's nodes as keys, every score is
    non-negative, and the scores sum to 1, hence to 1 within 1e-4. *)
Theorem rank_scores_form_distribution
    (words : list term) (w : Z) (G : Graph) :
  build_graph words w = Ok G -> G <> [] ->
  map fst (Ranker.rank G) = nodes G /\
  (forall u s, In (u, s) (Ranker.rank G) -> 0 <= s) /\
  Qsum (map snd (Ranker.rank G)) == 1 /\
  Qabs (Qsum (map snd (Ranker.rank G)) - 1) <= 1 # 10000.
Proof.
  intros HB HG.
  pose proof (build_graph_well_formed words w G HB) as Hw.
  destruct (rank_distribution G Hw HG) as [Ht Hx].
  destruct (tabulated_columns _ _ _ (rank_tabulated G)) as [Hk Hs].
  assert (Hsum : Qsum (map snd (Ranker.rank G)) == 1).
  { rewrite Hs. exact Ht. }
  repeat split.
  - exact Hk.
  - intros u s Hin. rewrite (rank_tabulated G) in Hin.
    apply in_map_iff in Hin. destruct Hin as [v [E Hv]].
    injection E as _ <-. now apply Hx.
  - exact Hsum.
  - rewrite Hsum. discriminate.
Qed.

Lemma rank_scores_form_distribution_witness :
  map fst (Ranker.rank [("a", ["b"]); ("b", ["a"])]) = ["a"; "b"] /\
  (forall u s, In (u, s) (Ranker.rank [("a", ["b"]); ("b", ["a"])]) ->
               0 <= s) /\
  Qsum (map snd (Ranker.rank [("a", ["b"]); ("b", ["a"])])) == 1 /\
  Qabs (Qsum (map snd (Ranker.rank [("a", ["b"]); ("b", ["a"])])) - 1)
  <= 1 # 10000.
Proof.
  apply (rank_scores_form_distribution ["a"; "b"] 1);
    [reflexivity | discriminate].
Defined.

(** C6, as stated, fails on the empty graph, which the builder returns
    for six equal tokens: there is no node to carry a score, and the
    sum over the node set is 0. *)
Lemma rank_empty_graph_sums_to_zero :
  exists G,
    build_graph ["air"; "air"; "air"; "air"; "air"; "air"] 2 = Ok G /\
    Ranker.rank G = [] /\
    Qsum (map snd (Ranker.rank G)) == 0 /\
    ~ Qabs (Qsum (map snd (Ranker.rank G)) - 1) <= 1 # 10000.
Proof.
  exists empty_graph. repeat split. vm_compute. intros H. now apply H.
Qed.

Lemma converged_iff (x y : ScoreMap) :
  Ranker.converged x y = true <-> Ranker.l1_change x y < Ranker.tolerance.
Proof.
  unfold Ranker.converged. rewrite negb_true_iff.
  destruct (Qle_bool _ _) eqn:E.
  - apply Qle_bool_iff in E. split; [discriminate |].
    intros H. exfalso. eapply Qlt_not_le; eassumption.
  - split; [intros _ | reflexivity].
    apply Qnot_le_lt. intros H. apply Qle_bool_iff in H. congruence.
Qed.

Lemma iterate_stops (G : Graph) (fuel n : nat) :
  exists k, (1 <= k <= S fuel)%nat /\
    Ranker.iterate G (S fuel) (Ranker.iterates G n)
    = Ranker.iterates G (n + k) /\
    (forall j, (1 <= j < k)%nat ->
       Ranker.tolerance
       <= Ranker.l1_change (Ranker.iterates G (n + j))
                           (Ranker.iterates G (n + j - 1))) /\
    ((k < S fuel)%nat ->
       Ranker.l1_change (Ranker.iterates G (n + k))
                        (Ranker.iterates G (n + k - 1))
       < Ranker.tolerance).
Proof.
  revert n. induction fuel as [| fuel IH]; intros n.
  - exists 1%nat. simpl. replace (n + 1)%nat with (S n) by lia. simpl.
    repeat split; try lia.
    now destruct (Ranker.converged _ _).
  - cbn [Ranker.iterate].
    destruct (Ranker.converged (Ranker.step G (Ranker.iterates G n))
                               (Ranker.iterates G n)) eqn:E.
    + exists 1%nat. replace (n + 1)%nat with (S n) by lia.
      repeat split; try lia.
      intros _. replace (S n - 1)%nat with n by lia.
      now apply converged_iff.
    + destruct (IH (S n)) as [k [Hk [Hr [Hlt Hc]]]].
      exists (S k). replace (n + S k)%nat with (S n + k)%nat by lia.
      repeat split; try lia.
      * exact Hr.
      * intros j Hj. destruct (Nat.eq_dec j 1) as [-> | Hj1].
        -- replace (n + 1)%nat with (S n) by lia.
           replace (S n - 1)%nat with n by lia. cbn [Ranker.iterates].
           apply Qnot_lt_le. intros H. apply converged_iff in H. congruence.
        -- replace (n + j)%nat with (S n + (j - 1))%nat by lia.
           apply Hlt. lia.
      * intros Hk'. apply Hc. lia.
Qed.

(** C4: with damping 0.85, tolerance 1e-6 and a cap of 100 iterations,
    the ranker returns, for every graph, the first iterate whose L1
    change from the previous one is below the tolerance, and the 100th
    iterate when there is none before it; no error is involved. *)
Theorem rank_returns_converged_or_last_iterate (G : Graph) :
  Ranker.damping == 85 # 100 /\ Ranker.tolerance == 1 # 1000000 /\
  Ranker.max_iter = 100%nat /\
  exists k, (1 <= k <= 100)%nat /\
    Ranker.rank G = Ranker.iterates G k /\
    (forall j, (1 <= j < k)%nat ->
       Ranker.tolerance
       <= Ranker.l1_change (Ranker.iterates G j)
                           (Ranker.iterates G (j - 1))) /\
    ((k < 100)%nat ->
       Ranker.l1_change (Ranker.iterates G k) (Ranker.iterates G (k - 1))
       < Ranker.tolerance).
Proof.
  repeat split; try reflexivity.
  destruct (iterate_stops G 99 0) as [k H]. exists k. exact H.
Qed.

End RankerClaims.

(** ** Convergence within the cap *)

Section Convergence.

Local Open Scope Q_scope.

Lemma Qsum_abs {A : Type} (f : A -> Q) (l : list A) :
  Qabs (Qsum (map f l)) <= Qsum (map (fun a => Qabs (f a)) l).
Proof.
  induction l as [| a l IH]; simpl; [discriminate |].
  eapply Qle_trans; [apply Qabs_triangle |].
  apply Qplus_le_compat; [apply Qle_refl | exact IH].
Qed.

Lemma Qsum_map_le {A : Type} (f g : A -> Q) (l : list A) :
  (forall a, In a l -> f a <= g a) -> Qsum (map f l) <= Qsum (map g l).
Proof.
  induction l as [| a l IH]; intros H; simpl; [apply Qle_refl |].
  apply Qplus_le_compat; [apply H; now left |].
  apply IH. intros b Hb. apply H. now right.
Qed.

Lemma Qmult_le_l_nonneg (x y z : Q) : x <= y -> 0 <= z -> z * x <= z * y.
Proof.
  intros H Hz. rewrite !(Qmult_comm z). now apply Qmult_le_compat_r.
Qed.

Lemma Qsum_map_minus {A : Type} (f g : A -> Q) (l : list A) :
  Qsum (map f l) - Qsum (map g l) == Qsum (map (fun a => f a - g a) l).
Proof.
  induction l as [| a l IH]; simpl; [ring | rewrite <- IH; ring].
Qed.

Lemma occurrences_nonneg (v : term) (ns : list term) : 0 <= occurrences v ns.
Proof.
  unfold occurrences. apply Qsum_nonneg. intros q Hq.
  apply in_map_iff in Hq. destruct Hq as [t [<- _]].
  destruct (String.eqb t v); discriminate.
Qed.

Lemma received_closed (G : Graph) (x : ScoreMap) (v : term) :
  Ranker.received G x v ==
  Qsum (map (fun e => occurrences v (snd e)
                      * (Ranker.score_of x (fst e) / Ranker.degree (snd e)))
            G).
Proof.
  unfold Ranker.received, Ranker.shares.
  induction G as [| e G IH]; [reflexivity |].
  simpl flat_map. rewrite filter_app, map_app, Qsum_app, IH. simpl.
  apply Qplus_comp; [| reflexivity].
  generalize (Ranker.score_of x (fst e) / Ranker.degree (snd e)).
  intros q. unfold occurrences.
  induction (snd e) as [| t ns IHn]; simpl; [ring |].
  destruct (String.eqb t v); simpl; rewrite IHn; ring.
Qed.

Lemma score_of_gap (G : Graph) (x y : ScoreMap) (u : term) :
  In u (nodes G) ->
  Ranker.score_of (gap G x y) u
  = Qabs (Ranker.score_of x u - Ranker.score_of y u).
Proof.
  intros Hu. unfold Ranker.score_of at 1, gap. now rewrite get_map.
Qed.

Lemma share_gap (c p r q : Q) :
  0 <= c -> 0 <= q ->
  Qabs (c * (p / q) - c * (r / q)) == c * (Qabs (p - r) / q).
Proof.
  intros Hc Hq.
  assert (E : c * (p / q) - c * (r / q) == (c * / q) * (p - r)).
  { unfold Qdiv. ring. }
  rewrite E, Qabs_Qmult, Qabs_pos.
  - unfold Qdiv. ring.
  - apply Qmult_le_0_compat; [assumption | now apply Qinv_le_0_compat].
Qed.

Lemma received_gap (G : Graph) (x y : ScoreMap) (v : term) :
  Qabs (Ranker.received G x v - Ranker.received G y v)
  <= Ranker.received G (gap G x y) v.
Proof.
  rewrite !received_closed, Qsum_map_minus.
  eapply Qle_trans; [apply Qsum_abs |].
  apply Qsum_map_le. intros e He.
  rewrite share_gap; [| apply occurrences_nonneg | apply degree_nonneg].
  rewrite score_of_gap; [apply Qle_refl |].
  unfold nodes. now apply in_map.
Qed.

Lemma dangling_gap (G : Graph) (x y : ScoreMap) :
  Qabs (Ranker.dangling G x - Ranker.dangling G y)
  <= Ranker.dangling G (gap G x y).
Proof.
  unfold Ranker.dangling. rewrite Qsum_map_minus.
  eapply Qle_trans; [apply Qsum_abs |].
  apply Qsum_map_le. intros e He.
  destruct (snd e).
  - rewrite score_of_gap; [apply Qle_refl |].
    unfold nodes. now apply in_map.
  - discriminate.
Qed.

Lemma total_gap (G : Graph) (x y : ScoreMap) :
  Ranker.total G (gap G x y)
  == Qsum (map (fun u => Qabs (Ranker.score_of x u - Ranker.score_of y u))
               (nodes G)).
Proof.
  unfold Ranker.total. apply Qsum_map_ext.
  intros u Hu. now rewrite score_of_gap.
Qed.

(** One iteration brings two score maps closer by the damping factor. *)
Lemma step_contracts (G : Graph) (x y : ScoreMap) :
  well_formed G -> G <> [] ->
  Ranker.total G (gap G (Ranker.step G x) (Ranker.step G y))
  <= Ranker.damping * Ranker.total G (gap G x y).
Proof.
  intros Hw HG. pose proof (size_nonzero G HG) as HN.
  destruct damping_range as [Hd _].
  rewrite total_gap.
  apply Qle_trans with
    (Qsum (map (fun v => Ranker.damping * Ranker.dangling G (gap G x y)
                         / Ranker.size G
                         + Ranker.damping * Ranker.received G (gap G x y) v)
               (nodes G))).
  - apply Qsum_map_le. intros v Hv.
    rewrite !score_of_step by assumption.
    assert (E : (1 - Ranker.damping) / Ranker.size G
                + Ranker.damping
                  * (Ranker.received G x v + Ranker.dangling G x / Ranker.size G)
                - ((1 - Ranker.damping) / Ranker.size G
                   + Ranker.damping
                     * (Ranker.received G y v
                        + Ranker.dangling G y / Ranker.size G))
                == Ranker.damping
                   * ((Ranker.dangling G x - Ranker.dangling G y)
                      * / Ranker.size G
                      + (Ranker.received G x v - Ranker.received G y v))).
    { field. exact HN. }
    rewrite E, Qabs_Qmult, (Qabs_pos Ranker.damping) by assumption.
    assert (F : Ranker.damping * Ranker.dangling G (gap G x y) / Ranker.size G
                + Ranker.damping * Ranker.received G (gap G x y) v
                == Ranker.damping
                   * (Ranker.dangling G (gap G x y) * / Ranker.size G
                      + Ranker.received G (gap G x y) v)).
    { field. exact HN. }
    rewrite F. apply Qmult_le_l_nonneg; [| assumption].
    eapply Qle_trans; [apply Qabs_triangle |].
    apply Qplus_le_compat; [| apply received_gap].
    rewrite Qabs_Qmult, (Qabs_pos (/ Ranker.size G)).
    + apply Qmult_le_compat_r; [apply dangling_gap |].
      apply Qinv_le_0_compat, size_nonneg.
    + apply Qinv_le_0_compat, size_nonneg.
  - rewrite Qsum_map_plus, Qsum_map_const, Qsum_map_scale.
    rewrite received_total, shares_sum by assumption.
    rewrite <- (mass_split G (gap G x y)), length_nodes.
    fold (Ranker.size G).
    match goal with
    | |- ?l <= ?r => assert (E : l == r) by (field; exact HN)
    end.
    rewrite E. apply Qle_refl.
Qed.

Lemma l1_change_tabulated (G : Graph) (x y : ScoreMap) :
  tabulated G x -> Ranker.l1_change x y == Ranker.total G (gap G x y).
Proof.
  intros Hx. rewrite total_gap. unfold Ranker.l1_change, tabulated in *.
  remember (Ranker.score_of x) as f eqn:Ef. clear Ef. subst x.
  rewrite map_map. reflexivity.
Qed.

Lemma iterates_tabulated (G : Graph) (k : nat) :
  tabulated G (Ranker.iterates G k).
Proof. destruct k; apply tabulated_map. Qed.

Lemma iterates_distribution (G : Graph) (k : nat) :
  well_formed G -> G <> [] -> distribution G (Ranker.iterates G k).
Proof.
  intros Hw HG. induction k as [| k IH]; simpl.
  - now apply initial_distribution.
  - now apply step_distribution.
Qed.

Lemma first_change_bound (G : Graph) :
  well_formed G -> G <> [] ->
  Ranker.total G (gap G (Ranker.iterates G 1) (Ranker.iterates G 0)) <= 2.
Proof.
  intros Hw HG.
  destruct (iterates_distribution G 1 Hw HG) as [T1 P1].
  destruct (iterates_distribution G 0 Hw HG) as [T0 P0].
  rewrite total_gap.
  apply Qle_trans with
    (Qsum (map (fun u => Ranker.score_of (Ranker.iterates G 1) u
                         + Ranker.score_of (Ranker.iterates G 0) u)
               (nodes G))).
  - apply Qsum_map_le. intros u Hu.
    eapply Qle_trans; [apply Qabs_triangle |].
    rewrite Qabs_opp, !Qabs_pos by auto. apply Qle_refl.
  - rewrite Qsum_map_plus. unfold Ranker.total in T1, T0.
    rewrite T1, T0. discriminate.
Qed.

Lemma change_bound (G : Graph) (k : nat) :
  well_formed G -> G <> [] ->
  Ranker.total G (gap G (Ranker.iterates G (S k)) (Ranker.iterates G k))
  <= 2 * Qpow Ranker.damping k.
Proof.
  intros Hw HG. destruct damping_range as [Hd _].
  induction k as [| k IH].
  - simpl Qpow. eapply Qle_trans; [now apply first_change_bound |].
    discriminate.
  - cbn [Ranker.iterates Qpow].
    eapply Qle_trans; [now apply step_contracts |].
    cbn [Ranker.iterates] in IH.
    assert (E : 2 * (Ranker.damping * Qpow Ranker.damping k)
                == Ranker.damping * (2 * Qpow Ranker.damping k)) by ring.
    rewrite E. now apply Qmult_le_l_nonneg.
Qed.

Lemma cap_suffices : 2 * Qpow Ranker.damping 99 < Ranker.tolerance.
Proof. vm_compute. reflexivity. Qed.

(** On a built graph with at least one node the iteration converges no
    later than at the cap: the iterate that [rank] returns always has an
    L1 change below the tolerance. *)
Lemma rank_converges_within_cap (G : Graph) :
  well_formed G -> G <> [] ->
  exists k, (1 <= k <= 100)%nat /\
    Ranker.rank G = Ranker.iterates G k /\
    Ranker.l1_change (Ranker.iterates G k) (Ranker.iterates G (k - 1))
    < Ranker.tolerance.
Proof.
  intros Hw HG.
  destruct (iterate_stops G 99 0) as [k [Hk [Hr [_ Hc]]]].
  exists k. split; [exact Hk |]. split; [exact Hr |].
  destruct (Nat.eq_dec k 100) as [-> | Hne].
  - simpl Nat.sub. rewrite l1_change_tabulated by apply iterates_tabulated.
    eapply Qle_lt_trans; [now apply change_bound | apply cap_suffices].
  - apply Hc. lia.
Qed.

End Convergence.

(** ** The ranked table *)

Section RankedIndex.

Local Open Scope Q_scope.

Lemma insert_desc_perm (r : term * Q) (l : list (term * Q)) :
  Permutation (insert_desc r l) (r :: l).
Proof.
  induction l as [| r' l IH]; simpl; [apply Permutation_refl |].
  destruct (Qle_bool (snd r') (snd r)); [apply Permutation_refl |].
  eapply perm_trans; [apply perm_skip, IH | apply perm_swap].
Qed.

Lemma sort_values_perm (rows : list (term * Q)) :
  Permutation (sort_values rows) rows.
Proof.
  induction rows as [| r rows IH]; simpl; [constructor |].
  eapply perm_trans; [apply insert_desc_perm | now apply perm_skip].
Qed.

Lemma insert_desc_HdRel (a r : term * Q) (l : list (term * Q)) :
  HdRel score_desc a l -> score_desc a r ->
  HdRel score_desc a (insert_desc r l).
Proof.
  intros Hl Hr. destruct l as [| r' l]; simpl; [now constructor |].
  destruct (Qle_bool (snd r') (snd r)); constructor; [assumption |].
  now inversion Hl.
Qed.

Lemma insert_desc_sorted (r : term * Q) (l : list (term * Q)) :
  Sorted score_desc l -> Sorted score_desc (insert_desc r l).
Proof.
  induction l as [| r' l IH]; intros Hs; simpl.
  - repeat constructor.
  - inversion Hs as [| ? ? Hl Hh]; subst.
    destruct (Qle_bool (snd r') (snd r)) eqn:E.
    + apply Qle_bool_iff in E. constructor; [assumption |].
      now constructor.
    + constructor; [now apply IH |].
      apply insert_desc_HdRel; [assumption |].
      unfold score_desc. apply Qlt_le_weak, Qnot_le_lt.
      intros H. apply Qle_bool_iff in H. congruence.
Qed.

Lemma sort_values_sorted (rows : list (term * Q)) :
  Sorted score_desc (sort_values rows).
Proof.
  induction rows as [| r rows IH]; simpl; [constructor |].
  now apply insert_desc_sorted.
Qed.

Lemma py_range_length (lo hi : Z) :
  List.length (py_range lo hi) = Z.to_nat (hi - lo).
Proof. unfold py_range. now rewrite length_map, length_seq. Qed.

Lemma combine_columns {A B : Type} (l : list A) (l' : list B) :
  List.length l = List.length l' ->
  map fst (combine l l') = l /\ map snd (combine l l') = l'.
Proof.
  revert l'. induction l as [| a l IH]; intros [| b l'] H;
    try discriminate; simpl; [now split |].
  injection H as H. destruct (IH l' H) as [-> ->]. now split.
Qed.

Lemma insert_ID_columns (rows : list (term * Q)) :
  map ID (insert_ID rows)
  = py_range 1 (Z.of_nat (List.length rows) + 1) /\
  map (fun r => (Kata r, PageRank r)) (insert_ID rows) = rows.
Proof.
  unfold insert_ID. rewrite !map_map. simpl.
  destruct (combine_columns
              (py_range 1 (Z.of_nat (List.length rows) + 1)) rows)
    as [H1 H2].
  - rewrite py_range_length. lia.
  - split; [exact H1 |].
    etransitivity; [| exact H2]. apply map_ext. now intros [k [t s]].
Qed.

Lemma Sorted_map_inv {A B : Type} (R : B -> B -> Prop) (g : A -> B)
    (l : list A) :
  Sorted R (map g l) -> Sorted (fun a b => R (g a) (g b)) l.
Proof.
  induction l as [| a l IH]; intros H; [constructor |].
  simpl in H. inversion H as [| ? ? Hs Hh]; subst.
  constructor; [now apply IH |].
  destruct l as [| b l]; constructor. now inversion Hh.
Qed.

(** C2 (as the code has it): the ranked table holds exactly the entries
    of the score map, in an order in which the score never increases
    from one row to the next, numbered 1..N; the term plays no part in
    the order. *)
Theorem ranked_index_sorted_by_score (pr : ScoreMap) :
  Permutation (map (fun r => (Kata r, PageRank r)) (ranked_index pr)) pr /\
  Sorted (fun r r' => PageRank r' <= PageRank r) (ranked_index pr) /\
  map ID (ranked_index pr) = py_range 1 (Z.of_nat (List.length pr) + 1).
Proof.
  unfold ranked_index, items.
  destruct (insert_ID_columns (sort_values pr)) as [HID Hrows].
  repeat split.
  - rewrite Hrows. apply sort_values_perm.
  - apply (Sorted_map_inv score_desc (fun r => (Kata r, PageRank r))).
    rewrite Hrows. apply sort_values_sorted.
  - rewrite HID. f_equal. f_equal. f_equal.
    apply Permutation_length, sort_values_perm.
Qed.

(** C2, as stated, fails: with equal scores and "b" stored before "a",
    the table lists "b" first. *)
Lemma ranked_index_tie_not_lexicographic :
  ranked_index [("b", 33 # 100); ("a", 33 # 100)]
  = [mk_row 1 "b" (33 # 100); mk_row 2 "a" (33 # 100)] /\
  position "b" (ranked_index [("b", 33 # 100); ("a", 33 # 100)]) = Some 0%nat /\
  position "a" (ranked_index [("b", 33 # 100); ("a", 33 # 100)]) = Some 1%nat.
Proof. repeat split. Qed.

End RankedIndex.

(** A sort that is given the score column alone cannot order ties by
    term: two frames with the same scores get the same row numbers. *)
Section KeyOnlySort.

Variable argsort : list Q -> list nat.

Lemma take_swapped (s : Q) (idx : list nat) :
  map fst (take [("b", s); ("a", s)] idx)
  = map (fun t => if String.eqb t "a" then "b" else "a")
        (map fst (take [("a", s); ("b", s)] idx)).
Proof.
  induction idx as [| i idx IH]; [reflexivity |].
  destruct i as [| [| i]]; simpl; try (now rewrite IH).
  destruct i; simpl; exact IH.
Qed.

Lemma key_only_sort_ignores_terms (s : Q) :
  ~ (map fst (sort_by_key argsort [("a", s); ("b", s)]) = ["a"; "b"] /\
     map fst (sort_by_key argsort [("b", s); ("a", s)]) = ["a"; "b"]).
Proof.
  unfold sort_by_key. simpl map. intros [H1 H2].
  rewrite take_swapped, H1 in H2. discriminate.
Qed.

End KeyOnlySort.

(** ** The word-count gate of [main] *)

Section Gate.

Variable nx_pagerank : Graph -> ScoreMap.

Lemma process_upload_too_short (w : Z) (st : session * list call) (f : upload) :
  1 <= w <= 5 -> too_short w f ->
  process_upload nx_pagerank w st f = Ok st.
Proof.
  intros Hw Hf. destruct f as [name words], st as [s log].
  unfold too_short in Hf. simpl in Hf. unfold process_upload.
  destruct (negb (has_key name (paper_data s))); [| reflexivity].
  destruct (5 <? Z.of_nat (List.length words)) eqn:E; [| reflexivity].
  apply Z.ltb_lt in E. lia.
Qed.

Lemma process_uploads_too_short (w : Z) (st : session * list call)
    (fs : list upload) :
  1 <= w <= 5 -> Forall (too_short w) fs ->
  process_uploads nx_pagerank w st fs = Ok st.
Proof.
  intros Hw Hfs. induction Hfs as [| f fs Hf _ IH]; [reflexivity |].
  simpl. rewrite process_upload_too_short by assumption. exact IH.
Qed.

Lemma process_uploads_app (w : Z) (st : session * list call)
    (fs fs' : list upload) :
  process_uploads nx_pagerank w st (fs ++ fs') =
  (st' <- process_uploads nx_pagerank w st fs ;;
   process_uploads nx_pagerank w st' fs').
Proof.
  revert st. induction fs as [| f fs IH]; intros st; simpl; [reflexivity |].
  destruct (process_upload nx_pagerank w st f) as [st1 | e]; simpl;
    [apply IH | reflexivity].
Qed.

(** C7 (as the code has it): with the window size in the slider's range
    1..5, an upload whose cleaned words are too short is passed over:
    neither the builder nor the ranker is called for it and the session
    is left as it was, so a run with the file is the run without it,
    whatever the other files and the session are. Nothing is shown for
    the file itself; the informational message is the page when no
    paper is stored, as in a run from an empty session over files that
    are all too short. *)
Theorem main_ignores_short_input (w : Z) (f : upload) :
  1 <= w <= 5 -> too_short w f ->
  (forall st, process_upload nx_pagerank w st f = Ok st) /\
  (forall s fs fs',
      main nx_pagerank w s (fs ++ f :: fs') = main nx_pagerank w s (fs ++ fs')) /\
  (forall fs, Forall (too_short w) fs ->
      main nx_pagerank w initial_session (f :: fs)
      = Ok (initial_session, [],
            Info "Silakan upload file PDF di sidebar.")).
Proof.
  intros Hw Hf. split; [| split].
  - intros st. now apply process_upload_too_short.
  - intros s fs fs'. unfold main. rewrite !process_uploads_app.
    destruct (process_uploads nx_pagerank w (s, []) fs) as [st1 | e];
      [| reflexivity].
    simpl. now rewrite process_upload_too_short.
  - intros fs Hfs. unfold main.
    rewrite process_uploads_too_short; [reflexivity | assumption |].
    now constructor.
Qed.

End Gate.

Lemma main_ignores_short_input_witness :
  (forall st, process_upload Ranker.rank 5 st
                ("a.pdf", ["gempa"; "bumi"; "patahan"; "aktif"]) = Ok st) /\
  (forall s fs fs',
      main Ranker.rank 5 s
        (fs ++ ("a.pdf", ["gempa"; "bumi"; "patahan"; "aktif"]) :: fs')
      = main Ranker.rank 5 s (fs ++ fs')) /\
  (forall fs, Forall (too_short 5) fs ->
      main Ranker.rank 5 initial_session
        (("a.pdf", ["gempa"; "bumi"; "patahan"; "aktif"]) :: fs)
      = Ok (initial_session, [],
            Info "Silakan upload file PDF di sidebar.")).
Proof.
  apply (main_ignores_short_input Ranker.rank 5
           ("a.pdf", ["gempa"; "bumi"; "patahan"; "aktif"])).
  - lia.
  - left. simpl. lia.
Defined.

(** C7, as stated, fails: a file that is too short, uploaded after a
    file that is stored, gets no message of its own; the page is the
    dashboard of the stored paper. And when the stored paper has an
    empty table (six equal words), the run ends in the exception of
    the number input. *)
Lemma main_short_input_without_message :
  too_short 2 ("pendek.pdf", ["gempa"; "bumi"]) /\
  main Ranker.rank 2 initial_session
    [("banjir.pdf", flood_tokens); ("pendek.pdf", ["gempa"; "bumi"])]
  = Ok (mk_session
          [("banjir.pdf",
            mk_paper flood_graph (Ranker.rank flood_graph)
              (ranked_index (Ranker.rank flood_graph)) 6)]
          (Some "banjir.pdf"),
        [Built flood_tokens 2; Ranked flood_graph],
        Dashboard "banjir.pdf"
          (mk_paper flood_graph (Ranker.rank flood_graph)
             (ranked_index (Ranker.rank flood_graph)) 6)) /\
  main Ranker.rank 2 initial_session
    [("air.pdf", ["air"; "air"; "air"; "air"; "air"; "air"]);
     ("pendek.pdf", ["gempa"; "bumi"])]
  = Raise StreamlitAPIException.
Proof.
  split; [left; simpl; lia |]. split; vm_compute; reflexivity.
Qed.

(** ** The displayed subgraph *)

Lemma nodes_subgraph (G : Graph) (sel : list term) (u : term) :
  In u (nodes (subgraph G sel)) <-> In u (nodes G) /\ In u sel.
Proof.
  unfold nodes, subgraph. rewrite map_map. simpl.
  rewrite !in_map_iff. split.
  - intros [e [<- He]]. apply filter_In in He. destruct He as [He Hm].
    split; [now exists e | now apply mem_In].
  - intros [[e [<- He]] Hs]. exists e. split; [reflexivity |].
    apply filter_In. split; [assumption | now apply mem_In].
Qed.

Lemma nodes_G_vis (G : Graph) (sel : list term) (u : term) :
  In u (nodes (G_vis G sel)) <->
  In u (nodes G) /\ (sel = [] \/ In u sel).
Proof.
  destruct sel as [| t sel]; simpl G_vis.
  - split; [intros H; split; auto | tauto].
  - rewrite nodes_subgraph. split; intros [H1 H2]; split; auto.
    destruct H2 as [H2 | H2]; [discriminate | assumption].
Qed.

Lemma firstn_le_In {A : Type} (m n : nat) (l : list A) (a : A) :
  (m <= n)%nat -> In a (firstn m l) -> In a (firstn n l).
Proof.
  revert n l. induction m as [| m IH]; intros n l Hmn; [contradiction |].
  destruct n as [| n]; [lia |]. destruct l as [| b l]; [contradiction |].
  simpl. intros [H | H]; [now left | right].
  apply (IH n); [lia | assumption].
Qed.

Lemma top_words_le (df : list row) (m n : Z) (u : term) :
  0 <= m <= n -> In u (top_words df m) -> In u (top_words df n).
Proof.
  intros H. unfold top_words, head.
  destruct (0 <=? m) eqn:Em; [| lia]. destruct (0 <=? n) eqn:En; [| lia].
  rewrite !in_map_iff. intros [r [E Hr]]. exists r. split; [assumption |].
  apply (firstn_le_In (Z.to_nat m)); [lia | assumption].
Qed.

Lemma top_words_nil (df : list row) (m : Z) :
  1 <= m -> top_words df m = [] -> df = [].
Proof.
  intros Hm. unfold top_words, head.
  destruct (0 <=? m) eqn:Em; [| lia].
  destruct (Z.to_nat m) as [| k] eqn:Ek; [lia |].
  destruct df as [| r df]; [reflexivity | discriminate].
Qed.

(** C10: without an explicit selection, every node shown at a cutoff
    [m >= 1] is also shown at any larger cutoff [n]. *)
Theorem view_monotone_in_cutoff (G : Graph) (pr : ScoreMap) (df : list row)
    (m n : Z) (search_input : string) (u : term) :
  1 <= m <= n ->
  In u (nodes (fst (view G pr df m None search_input))) ->
  In u (nodes (fst (view G pr df n None search_input))).
Proof.
  intros Hmn. unfold view. simpl. rewrite !nodes_G_vis.
  intros [Hu [Hm | Hm]]; split; try assumption.
  - left. apply top_words_nil in Hm; [| lia]. subst df.
    unfold top_words, head. destruct (0 <=? n); now rewrite firstn_nil.
  - right. apply (top_words_le df m n); [lia | assumption].
Qed.

Lemma view_monotone_in_cutoff_witness :
  In "river"
     (nodes (fst (view [("flood", ["river"; "bridge"]);
                        ("river", ["flood"; "bridge"]);
                        ("bridge", ["river"; "flood"])]
                       []
                       [mk_row 1 "river" (4 # 10); mk_row 2 "flood" (4 # 10);
                        mk_row 3 "bridge" (2 # 10)]
                       2 None ""))).
Proof.
  apply (view_monotone_in_cutoff _ _ _ 1 2); [lia |].
  simpl. now left.
Defined.

(** ** Search terms *)

Lemma is_space_lower (c : ascii) : is_space (lower_ascii c) = is_space c.
Proof. destruct c as [[] [] [] [] [] [] [] []]; reflexivity. Qed.

Lemma lower_ascii_idem (c : ascii) :
  lower_ascii (lower_ascii c) = lower_ascii c.
Proof. destruct c as [[] [] [] [] [] [] [] []]; reflexivity. Qed.

Lemma lower_idem (s : string) : lower (lower s) = lower s.
Proof.
  induction s as [| c s IH]; simpl; [reflexivity |].
  now rewrite lower_ascii_idem, IH.
Qed.

Lemma lstrip_lower (s : string) : lstrip (lower s) = lower (lstrip s).
Proof.
  induction s as [| c s IH]; simpl; [reflexivity |].
  rewrite is_space_lower. now destruct (is_space c).
Qed.

Lemma rstrip_lower (s : string) : rstrip (lower s) = lower (rstrip s).
Proof.
  induction s as [| c s IH]; simpl; [reflexivity |].
  rewrite IH, is_space_lower.
  destruct (rstrip s); simpl; [now destruct (is_space c) | reflexivity].
Qed.

Lemma strip_lower (s : string) : strip (lower s) = lower (strip s).
Proof. unfold strip. now rewrite lstrip_lower, rstrip_lower. Qed.

Lemma rstrip_idem (s : string) : rstrip (rstrip s) = rstrip s.
Proof.
  induction s as [| c s IH]; [reflexivity |].
  cbn [rstrip]. destruct (rstrip s) as [| d r] eqn:E.
  - destruct (is_space c) eqn:Ec; [reflexivity |].
    cbn [rstrip]. now rewrite Ec.
  - change (rstrip (String c (String d r)))
      with (match rstrip (String d r) with
            | EmptyString =>
                if is_space c then EmptyString else String c EmptyString
            | String _ _ as r' => String c r'
            end).
    now rewrite IH.
Qed.

Lemma no_lead_lstrip (s : string) : no_lead (lstrip s).
Proof.
  induction s as [| c s IH]; simpl; [exact I |].
  destruct (is_space c) eqn:E; [exact IH | exact E].
Qed.

Lemma lstrip_no_lead (s : string) : no_lead s -> lstrip s = s.
Proof.
  destruct s as [| c s]; simpl; [reflexivity |]. now intros ->.
Qed.

Lemma no_lead_rstrip (s : string) : no_lead s -> no_lead (rstrip s).
Proof.
  destruct s as [| c s]; simpl; [trivial |]. intros H.
  destruct (rstrip s); [rewrite H |]; exact H.
Qed.

Lemma strip_idem (s : string) : strip (strip s) = strip s.
Proof.
  unfold strip.
  rewrite (lstrip_no_lead (rstrip (lstrip s))).
  - apply rstrip_idem.
  - apply no_lead_rstrip, no_lead_lstrip.
Qed.

(** Every search term is non-empty, trimmed and lower-case. *)
Lemma search_terms_clean (search_input : string) :
  Forall (fun t => t <> EmptyString /\ strip t = t /\ lower t = t)
         (search_terms search_input).
Proof.
  unfold search_terms. apply Forall_forall. intros t Ht.
  apply in_map_iff in Ht. destruct Ht as [w [<- Hw]].
  apply filter_In in Hw. destruct Hw as [_ Hw].
  repeat split.
  - destruct (strip w); [discriminate | simpl; discriminate].
  - now rewrite strip_lower, strip_idem.
  - apply lower_idem.
Qed.

Lemma get_absent (pr : ScoreMap) (word : term) (d : Q) :
  (forall s, ~ In (word, s) pr) -> get pr word d = d.
Proof.
  induction pr as [| [k s] pr IH]; intros H; simpl; [reflexivity |].
  destruct (String.eqb_spec k word) as [-> | N].
  - exfalso. apply (H s). now left.
  - apply IH. intros s' Hs'. apply (H s'). now right.
Qed.

(** ** Styling *)

Lemma no_trail_rstrip (s : string) : no_trail (rstrip s).
Proof.
  induction s as [| c s IH]; [exact I |].
  cbn [rstrip]. destruct (rstrip s) as [| d r] eqn:E.
  - destruct (is_space c) eqn:Ec; [exact I | exact Ec].
  - exact IH.
Qed.

Lemma no_lead_lower (s : string) : no_lead s -> no_lead (lower s).
Proof.
  destruct s as [| c s]; simpl; [trivial |]. now rewrite is_space_lower.
Qed.

Lemma no_trail_lower (s : string) : no_trail s -> no_trail (lower s).
Proof.
  induction s as [| c s IH]; [trivial |].
  destruct s as [| d s'].
  - simpl. now rewrite is_space_lower.
  - intros H. apply IH in H. exact H.
Qed.

(** The search terms are the trimmed, lower-cased pieces between the
    commas of the input, without the pieces that are blank. *)
Lemma search_terms_pieces (search_input : string) (t : term) :
  In t (search_terms search_input) <->
  exists piece, In piece (split_comma search_input) /\
                strip piece <> EmptyString /\ t = lower (strip piece).
Proof.
  unfold search_terms. rewrite in_map_iff. split.
  - intros [piece [E Hp]]. apply filter_In in Hp. destruct Hp as [Hin Hp].
    exists piece. split; [exact Hin |]. split; [| now symmetry].
    intros H0. rewrite H0 in Hp. discriminate.
  - intros [piece [Hin [Hne E]]]. exists piece. split; [now symmetry |].
    apply filter_In. split; [exact Hin |].
    destruct (strip piece); [congruence | reflexivity].
Qed.

Lemma search_terms_trimmed (search_input : string) :
  Forall (fun t => t <> EmptyString /\ strip t = t /\
                   no_lead t /\ no_trail t)
         (search_terms search_input).
Proof.
  apply Forall_forall. intros t Ht.
  pose proof (search_terms_clean search_input) as Hc.
  rewrite Forall_forall in Hc. destruct (Hc t Ht) as [H1 [H2 _]].
  split; [exact H1 |]. split; [exact H2 |].
  apply search_terms_pieces in Ht. destruct Ht as [piece [_ [_ ->]]].
  split.
  - apply no_lead_lower. unfold strip.
    apply no_lead_rstrip, no_lead_lstrip.
  - apply no_trail_lower. unfold strip. apply no_trail_rstrip.
Qed.

Lemma get_present (pr : ScoreMap) (word : term) (s d : Q) :
  NoDup (map fst pr) -> In (word, s) pr -> get pr word d = s.
Proof.
  induction pr as [| [k s'] pr IH]; intros Hn Hin; [contradiction |].
  simpl in *. inversion Hn as [| ? ? Hk Hl]; subst.
  destruct Hin as [E | Hin].
  - injection E as -> ->. now rewrite String.eqb_refl.
  - destruct (String.eqb_spec k word) as [-> | N]; [| now apply IH].
    exfalso. apply Hk. change word with (fst (word, s)). now apply in_map.
Qed.

(** C9 (strings are ASCII): for a graph built from lower-case words,
    the styled nodes are the nodes of the displayed subgraph, one for
    each. The search terms are the trimmed, lower-cased, non-blank
    pieces between the commas of the search input; none is empty or
    has white space at either end. A node is emphasized (red, size
    score * 1600, border width 3) exactly when its case-folded term is
    one of them, and otherwise keeps the default colour and the size
    score * 1000. The score is the node's entry in the score map, or
    0.001 when the map has none. *)
Theorem style_emphasizes_search_matches
    (words : list term) (w : Z) (G : Graph) (pr : ScoreMap) (df : list row)
    (max_words : Z) (included : option (list term)) (search_input : string)
    (word : term) :
  Forall (fun t => lower t = t) words ->
  build_graph words w = Ok G ->
  In word (nodes (fst (view G pr df max_words included search_input))) ->
  snd (view G pr df max_words included search_input)
  = map (style pr (search_terms search_input))
        (nodes (fst (view G pr df max_words included search_input))) /\
  In (style pr (search_terms search_input) word)
     (snd (view G pr df max_words included search_input)) /\
  id (style pr (search_terms search_input) word) = word /\
  Forall (fun t => t <> EmptyString /\ strip t = t /\
                   no_lead t /\ no_trail t)
         (search_terms search_input) /\
  (forall t, In t (search_terms search_input) <->
     exists piece, In piece (split_comma search_input) /\
                   strip piece <> EmptyString /\ t = lower (strip piece)) /\
  (emphasized (style pr (search_terms search_input) word) = true <->
   In (lower word) (search_terms search_input)) /\
  (In (lower word) (search_terms search_input) ->
   color (style pr (search_terms search_input) word) = "#FF4B4B" /\
   size (style pr (search_terms search_input) word)
   = (get pr word default_score * 1600)%Q /\
   borderWidth (style pr (search_terms search_input) word) = Some 3) /\
  (~ In (lower word) (search_terms search_input) ->
   color (style pr (search_terms search_input) word) = "#97C2FC" /\
   size (style pr (search_terms search_input) word)
   = (get pr word default_score * 1000)%Q /\
   borderWidth (style pr (search_terms search_input) word) = None) /\
  (forall s, NoDup (map fst pr) -> In (word, s) pr ->
             get pr word default_score = s) /\
  ((forall s, ~ In (word, s) pr) ->
   get pr word default_score = (1 # 1000)%Q).
Proof.
  intros Hlow HB Hin.
  assert (Hword : lower word = word).
  { unfold view in Hin. simpl in Hin. apply nodes_G_vis in Hin.
    destruct Hin as [Hin _].
    apply (build_graph_nodes words w G HB) in Hin.
    rewrite Forall_forall in Hlow. now apply Hlow. }
  rewrite Hword.
  split; [reflexivity |].
  split; [unfold view in *; simpl in *; now apply in_map |].
  split; [unfold style; now destruct (mem word _) |].
  split; [apply search_terms_trimmed |].
  split; [intros t; apply search_terms_pieces |].
  split; [| split; [| split; [| split]]].
  - rewrite <- mem_In. unfold style, emphasized.
    destruct (mem word _); simpl; split; congruence.
  - intros H. apply mem_In in H. unfold style. rewrite H. now simpl.
  - intros H. apply mem_false in H. unfold style. rewrite H. now simpl.
  - intros s Hn Hs. now apply get_present.
  - intros H. now apply get_absent.
Qed.

Lemma style_emphasizes_search_matches_witness :
  (emphasized (style flood_scores (search_terms " Flood ,, jembatan") "flood")
   = true /\
   color (style flood_scores (search_terms " Flood ,, jembatan") "flood")
   = "#FF4B4B" /\
   size (style flood_scores (search_terms " Flood ,, jembatan") "flood")
   = ((4 # 10) * 1600)%Q /\
   borderWidth (style flood_scores (search_terms " Flood ,, jembatan") "flood")
   = Some 3) /\
  (emphasized (style flood_scores (search_terms " Flood ,, jembatan") "river")
   <> true /\
   color (style flood_scores (search_terms " Flood ,, jembatan") "river")
   = "#97C2FC" /\
   size (style flood_scores (search_terms " Flood ,, jembatan") "river")
   = ((4 # 10) * 1000)%Q /\
   borderWidth (style flood_scores (search_terms " Flood ,, jembatan") "river")
   = None).
Proof.
  assert (Hn : NoDup (map fst flood_scores)).
  { repeat constructor; simpl; intuition discriminate. }
  split.
  - destruct (style_emphasizes_search_matches flood_tokens 2 flood_graph
                flood_scores (ranked_index flood_scores) 3 None
                " Flood ,, jembatan" "flood")
      as [_ [_ [_ [_ [Hp [He [Hred [_ [Hs _]]]]]]]]].
    + repeat constructor.
    + reflexivity.
    + simpl. now left.
    + assert (Hin : In (lower "flood") (search_terms " Flood ,, jembatan")).
      { apply Hp. exists " Flood ". split; [simpl; now left |].
        split; [discriminate | reflexivity]. }
      split; [now apply He |].
      destruct (Hred Hin) as [Hc [Hz Hb]].
      split; [exact Hc |]. split; [| exact Hb].
      rewrite Hz, (Hs (4 # 10)%Q Hn); [reflexivity | simpl; now left].
  - destruct (style_emphasizes_search_matches flood_tokens 2 flood_graph
                flood_scores (ranked_index flood_scores) 3 None
                " Flood ,, jembatan" "river")
      as [_ [_ [_ [_ [Hp [He [_ [Hdef [Hs _]]]]]]]]].
    + repeat constructor.
    + reflexivity.
    + simpl. right. now left.
    + assert (Hout : ~ In (lower "river")
                        (search_terms " Flood ,, jembatan")).
      { intros Hin. apply Hp in Hin.
        destruct Hin as [piece [Hpc [Hne Heq]]]. simpl in Hpc.
        destruct Hpc as [<- | [<- | [<- | []]]]; discriminate Heq. }
      split; [intros H; now apply Hout, He |].
      destruct (Hdef Hout) as [Hc [Hz Hb]].
      split; [exact Hc |]. split; [| exact Hb].
      rewrite Hz, (Hs (4 # 10)%Q Hn); [reflexivity | simpl; right; now left].
Defined.

(** * Further properties of the code *)

(** ** More on built graphs *)

Lemma neighbors_In (G : Graph) (x : term) (ns : list term) :
  neighbors G x = Some ns -> In (x, ns) G.
Proof.
  induction G as [| [n ms] G IH]; simpl; [discriminate |].
  destruct (String.eqb_spec n x) as [-> | N].
  - intros E. injection E as ->. now left.
  - intros E. right. now apply IH.
Qed.

Lemma In_neighbors (G : Graph) (x : term) (ns : list term) :
  NoDup (nodes G) -> In (x, ns) G -> neighbors G x = Some ns.
Proof.
  induction G as [| [n ms] G IH]; simpl; [contradiction |].
  intros Hn [H | H]; inversion Hn as [| ? ? Hx Hl]; subst.
  - injection H as -> ->. now rewrite String.eqb_refl.
  - destruct (String.eqb_spec n x) as [-> | N]; [| now apply IH].
    exfalso. apply Hx. unfold nodes.
    change x with (fst (x, ns)). now apply in_map.
Qed.

Lemma neighbors_nodes (G : Graph) (x : term) :
  neighbors G x <> None <-> In x (nodes G).
Proof.
  rewrite <- has_node_neighbors. unfold has_node. apply mem_In.
Qed.

Lemma tidy_snoc (v : term) (ns : list term) :
  NoDup ns ->
  (if mem v ns then ns else ns ++ [v]) <> [] /\
  NoDup (if mem v ns then ns else ns ++ [v]).
Proof.
  intros Hn. destruct (mem v ns) eqn:E.
  - apply mem_In in E. split; [| assumption].
    destruct ns; [contradiction | discriminate].
  - apply mem_false in E. split.
    + destruct ns; discriminate.
    + apply NoDup_rev in Hn. rewrite <- (rev_involutive (ns ++ [v])).
      apply NoDup_rev. rewrite rev_app_distr. simpl.
      constructor; [now rewrite <- in_rev | assumption].
Qed.

Lemma NoDup_snoc_keep (v : term) (ns : list term) :
  NoDup ns -> NoDup (if mem v ns then ns else ns ++ [v]).
Proof. intros H. now apply tidy_snoc. Qed.

Lemma snoc_keep_nonempty (v : term) (ns : list term) :
  (if mem v ns then ns else ns ++ [v]) <> [].
Proof.
  destruct (mem v ns) eqn:E.
  - apply mem_In in E. destruct ns; [contradiction | discriminate].
  - destruct ns; discriminate.
Qed.

Lemma NoDup_add_node (G : Graph) (u : term) :
  (forall x ns, neighbors G x = Some ns -> NoDup ns) ->
  forall x ns, neighbors (add_node G u) x = Some ns -> NoDup ns.
Proof.
  intros HG x ns. rewrite neighbors_add_node.
  destruct (neighbors G x) as [ns0 |] eqn:E.
  - intros E'. injection E' as <-. now apply (HG x).
  - destruct (String.eqb u x); [| discriminate].
    intros E'. injection E' as <-. constructor.
Qed.

Lemma NoDup_link (G : Graph) (u v : term) :
  (forall x ns, neighbors G x = Some ns -> NoDup ns) ->
  forall x ns, neighbors (link G u v) x = Some ns -> NoDup ns.
Proof.
  intros HG x ns. rewrite neighbors_link.
  destruct (String.eqb x u); [| apply HG].
  destruct (neighbors G u) as [ns0 |] eqn:E; [| discriminate].
  simpl. intros E'. injection E' as <-.
  apply NoDup_snoc_keep. now apply (HG u).
Qed.

Lemma nonempty_link (G : Graph) (u v : term) :
  forall ns, neighbors (link G u v) u = Some ns -> ns <> [].
Proof.
  intros ns. rewrite neighbors_link, String.eqb_refl.
  destruct (neighbors G u) as [ns0 |]; [| discriminate].
  simpl. intros E. injection E as <-. apply snoc_keep_nonempty.
Qed.

Lemma tidy_add_edge (G : Graph) (a b : term) :
  tidy G -> tidy (add_edge G a b).
Proof.
  intros HG x ns E. split.
  - unfold add_edge in E.
    destruct (String.eqb_spec x b) as [-> | Nb].
    { now apply nonempty_link in E. }
    rewrite neighbors_link in E.
    apply String.eqb_neq in Nb. rewrite Nb in E.
    destruct (String.eqb_spec x a) as [-> | Na].
    { now apply nonempty_link in E. }
    rewrite neighbors_link in E.
    apply String.eqb_neq in Na. rewrite Na in E.
    rewrite !neighbors_add_node in E.
    destruct (neighbors G x) as [ns0 |] eqn:E0.
    + injection E as <-. now apply (HG x).
    + rewrite (String.eqb_sym a x), Na, (String.eqb_sym b x), Nb in E.
      discriminate.
  - revert x ns E. unfold add_edge.
    apply NoDup_link, NoDup_link, NoDup_add_node, NoDup_add_node.
    intros x ns E. now apply (HG x).
Qed.

Lemma build_graph_tidy (words : list term) (w : Z) (G : Graph) :
  build_graph words w = Ok G -> tidy G.
Proof.
  apply build_graph_ind.
  - intros x ns E. discriminate.
  - intros G' a b H _ _ _. now apply tidy_add_edge.
Qed.

Lemma build_graph_symmetric (words : list term) (w : Z) (G : Graph)
    (a b : term) :
  build_graph words w = Ok G -> has_edge G a b = true -> has_edge G b a = true.
Proof.
  intros HB. destruct (build_graph_edges words w) as [G' [E H]].
  assert (G' = G) by congruence. subst G'.
  rewrite !H. intros [i [j [Hi [Hj [x [y [Ex [Ey [N P]]]]]]]]].
  exists i, j. split; [assumption |]. split; [assumption |].
  exists x, y. tauto.
Qed.

Lemma empty_without_edges (words : list term) (w : Z) (G : Graph) :
  build_graph words w = Ok G ->
  (forall a b, has_edge G a b = false) -> G = [].
Proof.
  intros HB Hno. pose proof (build_graph_tidy words w G HB) as Ht.
  destruct G as [| [u ns] G]; [reflexivity |]. exfalso.
  destruct (Ht u ns) as [Hne _]; [simpl; now rewrite String.eqb_refl |].
  destruct ns as [| v ns]; [congruence |].
  specialize (Hno u v). unfold has_edge, mem in Hno. cbn in Hno.
  rewrite String.eqb_refl in Hno. cbn in Hno.
  rewrite String.eqb_refl in Hno. discriminate.
Qed.

Lemma build_graph_equal_pairs (words : list term) (w : Z) :
  (forall i j, 0 <= i < Z.of_nat (List.length words) - w -> 1 <= j <= w ->
               getitem words i = getitem words (i + j)) ->
  build_graph words w = Ok empty_graph.
Proof.
  intros Heq. destruct (build_graph_edges words w) as [G [E H]].
  rewrite E. f_equal. apply (empty_without_edges words w G E).
  intros a b. destruct (has_edge G a b) eqn:Hab; [| reflexivity].
  apply H in Hab. destruct Hab as [i [j [Hi [Hj [x [y [Ex [Ey [N _]]]]]]]]].
  rewrite (Heq i j Hi Hj) in Ex. congruence.
Qed.

(** X1: [build_graph] returns for every word list and every integer
    window size, and [a] and [b] are linked exactly when they differ and
    are the words at some positions [i] and [i + j] with
    [0 <= i < len(words) - window_size] and [1 <= j <= window_size]. *)
Theorem build_graph_edge_iff (words : list term) (w : Z) :
  exists G, build_graph words w = Ok G /\
    forall a b, has_edge G a b = true <->
      a <> b /\
      exists i j, 0 <= i < Z.of_nat (List.length words) - w /\ 1 <= j <= w /\
        ((getitem words i = Ok a /\ getitem words (i + j) = Ok b) \/
         (getitem words i = Ok b /\ getitem words (i + j) = Ok a)).
Proof.
  destruct (build_graph_edges words w) as [G [E H]].
  exists G. split; [exact E |]. intros a b. rewrite H. split.
  - intros [i [j [Hi [Hj [x [y [Ex [Ey [N P]]]]]]]]]. split.
    + destruct P as [[-> ->] | [-> ->]]; congruence.
    + exists i, j. split; [assumption |]. split; [assumption |].
      destruct P as [[-> ->] | [-> ->]]; tauto.
  - intros [N [i [j [Hi [Hj P]]]]]. exists i, j.
    split; [assumption |]. split; [assumption |].
    destruct P as [[Ea Eb] | [Eb Ea]].
    + exists a, b. tauto.
    + exists b, a. split; [assumption |]. split; [assumption |].
      split; [congruence | tauto].
Qed.

(** X2: the built graph is undirected: [a] is stored as a neighbour of
    [b] exactly when [b] is stored as a neighbour of [a]. *)
Theorem build_graph_undirected (words : list term) (w : Z) (G : Graph)
    (a b : term) :
  build_graph words w = Ok G -> has_edge G a b = has_edge G b a.
Proof.
  intros HB.
  destruct (has_edge G a b) eqn:Eab, (has_edge G b a) eqn:Eba;
    try reflexivity.
  - apply (build_graph_symmetric words w G a b HB) in Eab. congruence.
  - apply (build_graph_symmetric words w G b a HB) in Eba. congruence.
Qed.

Lemma build_graph_undirected_witness :
  has_edge flood_graph "bridge" "river" = has_edge flood_graph "river" "bridge".
Proof.
  apply (build_graph_undirected flood_tokens 2). reflexivity.
Defined.

(** X3: a term is a node of the built graph exactly when it has a
    neighbour; the neighbour is another term and is a node too, so the
    graph has no isolated node. *)
Theorem build_graph_node_iff_linked (words : list term) (w : Z) (G : Graph)
    (u : term) :
  build_graph words w = Ok G ->
  (In u (nodes G) <-> exists v, has_edge G u v = true) /\
  (forall v, has_edge G u v = true -> v <> u /\ In v (nodes G)).
Proof.
  intros HB.
  pose proof (build_graph_tidy words w G HB) as Ht.
  destruct (build_graph_well_formed words w G HB) as [_ Hw].
  split; [split |].
  - intros Hu. apply neighbors_nodes in Hu.
    destruct (neighbors G u) as [ns |] eqn:E; [| congruence].
    destruct (Ht u ns E) as [Hne _].
    destruct ns as [| v ns]; [congruence |].
    exists v. unfold has_edge. rewrite E. simpl.
    now rewrite String.eqb_refl.
  - intros [v Hv]. apply neighbors_nodes. unfold has_edge in Hv.
    destruct (neighbors G u); [discriminate | discriminate].
  - intros v Hv. split.
    + intros ->. destruct (build_graph_edges words w) as [G' [E H]].
      assert (G' = G) by congruence. subst G'. apply H in Hv.
      destruct Hv as [i [j [_ [_ [x [y [_ [_ [N P]]]]]]]]].
      destruct P as [[-> ->] | [-> ->]]; congruence.
    + unfold has_edge in Hv.
      destruct (neighbors G u) as [ns |] eqn:E; [| discriminate].
      apply mem_In in Hv. apply neighbors_In in E. eapply Hw; eassumption.
Qed.

Lemma build_graph_node_iff_linked_witness :
  (In "bridge" (nodes flood_graph) <->
   exists v, has_edge flood_graph "bridge" v = true) /\
  (forall v, has_edge flood_graph "bridge" v = true ->
             v <> "bridge" /\ In v (nodes flood_graph)).
Proof.
  apply (build_graph_node_iff_linked flood_tokens 2). reflexivity.
Defined.

(** X4: the built graph stores every node once and every neighbour of a
    node once, however often the pair occurs in the text; every node is
    one of the input words. *)
Theorem build_graph_stores_once (words : list term) (w : Z) (G : Graph) :
  build_graph words w = Ok G ->
  NoDup (nodes G) /\
  (forall u ns, In (u, ns) G -> NoDup ns) /\
  (forall u, In u (nodes G) -> In u words).
Proof.
  intros HB.
  destruct (build_graph_well_formed words w G HB) as [Hn _].
  split; [exact Hn |]. split.
  - intros u ns Hin. apply (In_neighbors G u ns Hn) in Hin.
    now apply (build_graph_tidy words w G HB u ns).
  - now apply (build_graph_nodes words w G).
Qed.

Lemma build_graph_stores_once_witness :
  NoDup (nodes flood_graph) /\
  (forall u ns, In (u, ns) flood_graph -> NoDup ns) /\
  (forall u, In u (nodes flood_graph) -> In u flood_tokens).
Proof.
  apply (build_graph_stores_once flood_tokens 2). reflexivity.
Defined.

(** X5: the built graph is empty exactly when no visited window pairs
    two different words; in particular it is empty when the list has at
    most [window_size] words. *)
Theorem build_graph_empty_iff (words : list term) (w : Z) :
  build_graph words w = Ok empty_graph <->
  (forall i j, 0 <= i < Z.of_nat (List.length words) - w -> 1 <= j <= w ->
               getitem words i = getitem words (i + j)).
Proof.
  split; [| apply build_graph_equal_pairs].
  intros HB i j Hi Hj.
  destruct (getitem_nonneg words i) as [x [Ex _]]; [lia |].
  destruct (getitem_nonneg words (i + j)) as [y [Ey _]]; [lia |].
  rewrite Ex, Ey. f_equal.
  destruct (String.eqb_spec x y) as [E | N]; [exact E | exfalso].
  destruct (build_graph_edges words w) as [G [E H]].
  assert (G = empty_graph) by congruence. subst G.
  assert (Hv : has_edge empty_graph x y = true).
  { apply H. exists i, j. split; [assumption |]. split; [assumption |].
    exists x, y. tauto. }
  discriminate.
Qed.

(** X6: a word list with at most [window_size] words gives the empty
    graph: no position has a full window. *)
Theorem build_graph_short_list (words : list term) (w : Z) :
  Z.of_nat (List.length words) <= w -> build_graph words w = Ok empty_graph.
Proof.
  intros H. apply build_graph_equal_pairs. intros i j Hi. lia.
Qed.

Lemma build_graph_short_list_witness :
  build_graph ["gempa"; "bumi"; "patahan"] 3 = Ok empty_graph.
Proof.
  apply (build_graph_short_list ["gempa"; "bumi"; "patahan"] 3). simpl. lia.
Defined.

(** X7: a word list that repeats one word gives the empty graph,
    whatever its length and the window size. *)
Theorem build_graph_one_word (words : list term) (w : Z) (t : term) :
  (forall u, In u words -> u = t) -> build_graph words w = Ok empty_graph.
Proof.
  intros Hall. apply build_graph_equal_pairs. intros i j Hi Hj.
  destruct (getitem_nonneg words i) as [x [Ex _]]; [lia |].
  destruct (getitem_nonneg words (i + j)) as [y [Ey _]]; [lia |].
  rewrite Ex, Ey. f_equal.
  rewrite (Hall x (getitem_In _ _ _ Ex)), (Hall y (getitem_In _ _ _ Ey)).
  reflexivity.
Qed.

Lemma build_graph_one_word_witness :
  build_graph ["air"; "air"; "air"; "air"; "air"; "air"; "air"] 3
  = Ok empty_graph.
Proof.
  apply (build_graph_one_word _ 3 "air").
  intros u H. simpl in H. intuition.
Defined.

(** X8: with window size 1 nothing is lost at the end of the list: two
    different terms are linked exactly when they stand next to each
    other somewhere in the list. *)
Theorem build_graph_window_one (words : list term) :
  exists G, build_graph words 1 = Ok G /\
    forall a b, has_edge G a b = true <->
      a <> b /\
      exists i, 0 <= i /\
        ((getitem words i = Ok a /\ getitem words (i + 1) = Ok b) \/
         (getitem words i = Ok b /\ getitem words (i + 1) = Ok a)).
Proof.
  destruct (build_graph_edges words 1) as [G [E H]].
  exists G. split; [exact E |]. intros a b. rewrite H. split.
  - intros [i [j [Hi [Hj [x [y [Ex [Ey [N P]]]]]]]]].
    assert (j = 1) by lia. subst j. split.
    + destruct P as [[-> ->] | [-> ->]]; congruence.
    + exists i. split; [lia |].
      destruct P as [[-> ->] | [-> ->]]; tauto.
  - intros [N [i [Hi P]]].
    assert (Hlen : i + 1 < Z.of_nat (List.length words)).
    { assert (Hb : exists c, getitem words (i + 1) = Ok c).
      { destruct P as [[_ Hb] | [_ Hb]]; eauto. }
      destruct Hb as [c Hc]. unfold getitem in Hc.
      destruct (i + 1 <? 0) eqn:E1; [lia |].
      destruct ((i + 1 <? 0) || (Z.of_nat (List.length words) <=? i + 1))
        eqn:E2; [discriminate |].
      apply orb_false_iff in E2. destruct E2 as [_ E2].
      apply Z.leb_gt in E2. exact E2. }
    exists i, 1. split; [lia |]. split; [lia |].
    destruct P as [[Ea Eb] | [Eb Ea]].
    + exists a, b. tauto.
    + exists b, a. split; [assumption |]. split; [assumption |].
      split; [congruence | tauto].
Qed.

(** ** More on the ranked table *)

Section RankedTable.

Local Open Scope Q_scope.

Lemma score_desc_trans : Relations_1.Transitive score_desc.
Proof.
  intros r1 r2 r3 H12 H23. unfold score_desc in *.
  eapply Qle_trans; eassumption.
Qed.

Lemma sort_values_head (rows : list (term * Q)) (r0 : term * Q)
    (rest : list (term * Q)) :
  sort_values rows = r0 :: rest ->
  In r0 rows /\ forall r, In r rows -> snd r <= snd r0.
Proof.
  intros E. pose proof (sort_values_perm rows) as HP.
  pose proof (sort_values_sorted rows) as HS.
  rewrite E in HP, HS.
  apply Sorted_StronglySorted in HS; [| exact score_desc_trans].
  inversion HS as [| ? ? _ Hall]; subst. split.
  - apply (Permutation_in _ HP). now left.
  - intros r Hr. apply Permutation_sym in HP.
    apply (Permutation_in _ HP) in Hr. destruct Hr as [<- | Hr].
    + apply Qle_refl.
    + rewrite Forall_forall in Hall. now apply Hall.
Qed.

(** X9: the first row of the ranked table has ID 1 and carries an
    entry of the score map whose score no other entry exceeds. *)
Theorem ranked_index_first_row (pr : ScoreMap) (r0 : row) (rest : list row) :
  ranked_index pr = r0 :: rest ->
  ID r0 = 1%Z /\ In (Kata r0, PageRank r0) pr /\
  forall t s, In (t, s) pr -> s <= PageRank r0.
Proof.
  intros E. unfold ranked_index, items in E.
  destruct (insert_ID_columns (sort_values pr)) as [HID Hrows].
  rewrite E in HID, Hrows. simpl in HID, Hrows.
  destruct (sort_values pr) as [| p rows] eqn:Es; [discriminate |].
  injection Hrows as Hp _.
  destruct (sort_values_head pr p rows Es) as [Hin Hmax].
  split; [| split].
  - unfold py_range in HID.
    destruct (Z.to_nat _) in HID; [discriminate |].
    simpl in HID. now injection HID as ->.
  - rewrite Hp. now destruct p.
  - intros t s Hts.
    assert (Hs : PageRank r0 = snd p) by (now rewrite <- Hp).
    rewrite Hs. apply (Hmax (t, s) Hts).
Qed.

Lemma ranked_index_first_row_witness :
  ID (mk_row 1 "flood" (4 # 10)) = 1%Z /\
  In (Kata (mk_row 1 "flood" (4 # 10)), PageRank (mk_row 1 "flood" (4 # 10)))
     flood_scores /\
  forall t s, In (t, s) flood_scores ->
              s <= PageRank (mk_row 1 "flood" (4 # 10)).
Proof.
  apply (ranked_index_first_row flood_scores _
           [mk_row 2 "river" (4 # 10); mk_row 3 "bridge" (2 # 10)]).
  reflexivity.
Defined.

End RankedTable.

(** ** More on the upload loop *)

Lemma get_item_set_item (d : list (string * paper)) (k k' : string)
    (v : paper) :
  get_item (set_item d k v) k' =
  if String.eqb k k' then Some v else get_item d k'.
Proof.
  induction d as [| [n p] d IH]; simpl.
  - now destruct (String.eqb k k').
  - destruct (String.eqb_spec n k) as [-> | N]; simpl.
    + now destruct (String.eqb k k').
    + rewrite IH. destruct (String.eqb_spec n k') as [-> | N']; [| reflexivity].
      destruct (String.eqb_spec k k'); [congruence | reflexivity].
Qed.

Lemma has_key_get_item (d : list (string * paper)) (k : string) :
  has_key k d = true <-> get_item d k <> None.
Proof.
  unfold has_key. induction d as [| [n p] d IH]; simpl.
  - split; [discriminate | congruence].
  - destruct (String.eqb n k); simpl; [| exact IH].
    split; [discriminate | reflexivity].
Qed.

Lemma has_key_set_item (d : list (string * paper)) (k k' : string)
    (v : paper) :
  has_key k' (set_item d k v) = String.eqb k k' || has_key k' d.
Proof.
  destruct (has_key k' (set_item d k v)) eqn:E.
  - apply has_key_get_item in E. rewrite get_item_set_item in E.
    destruct (String.eqb k k'); [reflexivity |].
    symmetry. now apply has_key_get_item.
  - destruct (String.eqb k k') eqn:Ek.
    + assert (H : has_key k' (set_item d k v) = true).
      { apply has_key_get_item. rewrite get_item_set_item, Ek. discriminate. }
      congruence.
    + simpl. destruct (has_key k' d) eqn:E'; [| reflexivity].
      assert (H : has_key k' (set_item d k v) = true).
      { apply has_key_get_item. rewrite get_item_set_item, Ek.
        now apply has_key_get_item. }
      congruence.
Qed.

Lemma set_item_nonempty (d : list (string * paper)) (k : string) (v : paper) :
  set_item d k v <> [].
Proof.
  destruct d as [| [n p] d]; simpl; [discriminate |].
  destruct (String.eqb n k); discriminate.
Qed.

Section UploadLoop.

Variable nx_pagerank : Graph -> ScoreMap.

Lemma consistent_incl (w : Z) (A B : list upload) (s : session) :
  incl A B -> consistent nx_pagerank w A s -> consistent nx_pagerank w B s.
Proof.
  intros HAB [Ha Hp]. split; [exact Ha |].
  intros name p E. destruct (Hp name p E) as [H1 [[words [Hin H2]] H3]].
  split; [exact H1 |]. split; [| exact H3].
  exists words. split; [now apply HAB | exact H2].
Qed.

Lemma process_upload_settled (w : Z) (s : session) (log : list call)
    (f : upload) :
  settled s f -> process_upload nx_pagerank w (s, log) f = Ok (s, log).
Proof.
  destruct f as [name words]. unfold settled. simpl.
  intros [H | H]; unfold process_upload.
  - rewrite H. reflexivity.
  - destruct (negb _); [| reflexivity].
    destruct (5 <? Z.of_nat (List.length words)) eqn:E; [| reflexivity].
    apply Z.ltb_lt in E. lia.
Qed.

(** One pass of the loop body: it returns, the file is settled
    afterwards, stored papers stay as they are, and consistency is
    kept. *)
Lemma process_upload_step (w : Z) (s : session) (log : list call)
    (f : upload) :
  exists s' log',
    process_upload nx_pagerank w (s, log) f = Ok (s', log') /\
    settled s' f /\
    (forall k p, get_item (paper_data s) k = Some p ->
                 get_item (paper_data s') k = Some p) /\
    (paper_data s' = [] <->
     paper_data s = [] /\ Z.of_nat (List.length (snd f)) <= 5) /\
    (forall A, consistent nx_pagerank w A s ->
               consistent nx_pagerank w (f :: A) s').
Proof.
  assert (Hweak : forall A, consistent nx_pagerank w A s ->
                            consistent nx_pagerank w (f :: A) s).
  { intros A HA. apply (consistent_incl w A); [| exact HA].
    intros x Hx. now right. }
  destruct f as [name words]. unfold process_upload.
  destruct (has_key name (paper_data s)) eqn:Ek; simpl negb; cbv iota.
  - exists s, log. split; [reflexivity |]. split; [now left |].
    split; [auto |]. split; [| auto].
    split; [| tauto]. intros E. rewrite E in Ek. discriminate.
  - destruct (5 <? Z.of_nat (List.length words)) eqn:E.
    + apply Z.ltb_lt in E.
      destruct (build_graph_edges words w) as [G [EG _]].
      rewrite EG. simpl bind.
      eexists. eexists. split; [reflexivity |].
      split; [| split; [| split]].
      * left. simpl. rewrite has_key_set_item, String.eqb_refl. reflexivity.
      * intros k p Hk. simpl. rewrite get_item_set_item.
        destruct (String.eqb_spec name k) as [<- | N]; [| exact Hk].
        assert (H : has_key name (paper_data s) = true).
        { apply has_key_get_item. congruence. }
        congruence.
      * simpl. split.
        -- intros H. exfalso. eapply set_item_nonempty. exact H.
        -- simpl. intros [_ H]. lia.
      * intros A HA. destruct (Hweak A HA) as [Ha Hp]. split; simpl.
        -- rewrite has_key_set_item, String.eqb_refl. reflexivity.
        -- intros k p. rewrite get_item_set_item.
           destruct (String.eqb_spec name k) as [<- | N]; [| apply Hp].
           intros Ep. injection Ep as <-. simpl.
           split; [exact E |]. split; [| split; reflexivity].
           exists words. split; [now left | now split].
    + apply Z.ltb_ge in E.
      exists s, log. split; [reflexivity |]. split; [right; simpl; lia |].
      split; [auto |]. split; [| auto].
      simpl. split; [intros H; split; [exact H | lia] | tauto].
Qed.

Lemma settled_mono (s s' : session) (f : upload) :
  (forall k p, get_item (paper_data s) k = Some p ->
               get_item (paper_data s') k = Some p) ->
  settled s f -> settled s' f.
Proof.
  intros Hk [H | H]; [left | now right].
  apply has_key_get_item in H. apply has_key_get_item.
  destruct (get_item (paper_data s) (fst f)) as [p |] eqn:E; [| congruence].
  rewrite (Hk _ _ E). discriminate.
Qed.

Lemma process_uploads_steps (w : Z) (fs : list upload) :
  forall (s : session) (log : list call),
  exists s' log',
    process_uploads nx_pagerank w (s, log) fs = Ok (s', log') /\
    Forall (settled s') fs /\
    (forall k p, get_item (paper_data s) k = Some p ->
                 get_item (paper_data s') k = Some p) /\
    (paper_data s' = [] <->
     paper_data s = [] /\
     Forall (fun f => Z.of_nat (List.length (snd f)) <= 5) fs) /\
    (forall A, consistent nx_pagerank w A s ->
               consistent nx_pagerank w (fs ++ A) s').
Proof.
  induction fs as [| f fs IH]; intros s log.
  - exists s, log. split; [reflexivity |]. split; [constructor |].
    split; [auto |]. split; [| auto].
    split; [intros H; split; [exact H | constructor] | tauto].
  - destruct (process_upload_step w s log f)
      as [s1 [log1 [E1 [H1 [K1 [N1 C1]]]]]].
    destruct (IH s1 log1) as [s2 [log2 [E2 [H2 [K2 [N2 C2]]]]]].
    exists s2, log2. simpl. rewrite E1. simpl.
    split; [exact E2 |]. split; [| split; [| split]].
    + constructor; [| exact H2]. now apply (settled_mono s1).
    + auto.
    + rewrite N2, N1. split.
      * intros [[Hs Hf] Hfs]. split; [exact Hs | now constructor].
      * intros [Hs Hfs]. inversion Hfs; subst. tauto.
    + intros A HA. apply (consistent_incl w (fs ++ f :: A)).
      * intros x Hx. apply in_app_or in Hx. simpl.
        destruct Hx as [Hx | [Hx | Hx]]; [right | now left | right];
          apply in_or_app; auto.
      * apply C2, C1, HA.
Qed.

Lemma initial_consistent (w : Z) :
  consistent nx_pagerank w [] initial_session.
Proof.
  split; [reflexivity |]. intros name p E. discriminate.
Qed.

Lemma display_consistent (w : Z) (A : list upload) (s : session) :
  consistent nx_pagerank w A s ->
  (paper_data s = [] /\
   display s = Ok (Info "Silakan upload file PDF di sidebar.")) \/
  (paper_data s <> [] /\
   exists k p, active_file_key s = Some k /\
               get_item (paper_data s) k = Some p /\
               display s = Ok (Dashboard k p)).
Proof.
  intros [Ha _]. unfold display.
  destruct (paper_data s) as [| e d] eqn:Ed.
  - left. now split.
  - right. split; [discriminate |].
    destruct (active_file_key s) as [k |]; [| discriminate].
    apply has_key_get_item in Ha.
    destruct (get_item (e :: d) k) as [p |] eqn:Ep; [| congruence].
    exists k, p. repeat split; try reflexivity. exact Ep.
Qed.

Lemma number_input_start (n : nat) :
  number_input 1 (Z.of_nat n) (Z.min 40 (Z.of_nat n)) =
  match n with
  | O => Raise StreamlitAPIException
  | S _ => Ok (Z.min 40 (Z.of_nat n))
  end.
Proof.
  unfold number_input. destruct n as [| n]; [reflexivity |].
  destruct (Z.min 40 (Z.of_nat (S n)) <? 1) eqn:E1;
    [apply Z.ltb_lt in E1; lia |].
  destruct (Z.of_nat (S n) <? Z.min 40 (Z.of_nat (S n))) eqn:E2;
    [apply Z.ltb_lt in E2; lia |].
  reflexivity.
Qed.

(** X10: from an empty session the upload loop and the choice of the
    paper raise nothing, whatever the files and the window size. The
    run ends on the informational message exactly when no file has
    more than five cleaned words; otherwise it reaches the dashboard
    of the active paper, where the number input raises exactly when
    the table of that paper is empty. *)
Theorem main_info_dashboard_or_refusal (w : Z) (fs : list upload) :
  exists s log,
    process_uploads nx_pagerank w (initial_session, []) fs = Ok (s, log) /\
    ((Forall (fun f => Z.of_nat (List.length (snd f)) <= 5) fs /\
      main nx_pagerank w initial_session fs
      = Ok (s, log, Info "Silakan upload file PDF di sidebar.")) \/
     (~ Forall (fun f => Z.of_nat (List.length (snd f)) <= 5) fs /\
      exists k p,
        active_file_key s = Some k /\
        get_item (paper_data s) k = Some p /\
        ((df p = [] /\
          main nx_pagerank w initial_session fs
          = Raise StreamlitAPIException) \/
         (df p <> [] /\
          main nx_pagerank w initial_session fs
          = Ok (s, log, Dashboard k p))))).
Proof.
  destruct (process_uploads_steps w fs initial_session [])
    as [s [log [E [_ [_ [N C]]]]]].
  exists s, log. split; [exact E |].
  unfold main. rewrite E. simpl bind. cbn [fst snd].
  destruct (display_consistent w _ s (C [] (initial_consistent w)))
    as [[Hd Ed] | [Hd [k [p [Hk [Hp Ed]]]]]]; rewrite Ed; simpl bind.
  - left. split; [| reflexivity]. apply N in Hd. tauto.
  - right. split.
    + intros Hall. apply Hd, N. now split.
    + exists k, p. split; [exact Hk |]. split; [exact Hp |].
      rewrite number_input_start.
      destruct (df p) as [| r rows]; [left | right];
        (split; [congruence || discriminate | reflexivity]).
Qed.

(** X11: running the upload loop again over the same files changes
    nothing and calls neither the builder nor the ranker, even with
    another window size: a stored paper is not recomputed. *)
Theorem process_uploads_again (w w' : Z) (s s' : session)
    (log log' : list call) (fs : list upload) :
  process_uploads nx_pagerank w (s, log) fs = Ok (s', log') ->
  process_uploads nx_pagerank w' (s', log') fs = Ok (s', log').
Proof.
  intros E.
  destruct (process_uploads_steps w fs s log) as [s1 [log1 [E1 [H1 _]]]].
  assert (Hs : s1 = s') by congruence. subst s1. clear E E1.
  induction H1 as [| f fs Hf _ IH]; [reflexivity |].
  simpl. rewrite process_upload_settled by assumption. exact IH.
Qed.

Lemma ranked_index_columns (pr : ScoreMap) :
  Permutation (map (fun r => (Kata r, PageRank r)) (ranked_index pr)) pr /\
  Sorted (fun r r' => (PageRank r' <= PageRank r)%Q) (ranked_index pr) /\
  map ID (ranked_index pr) = py_range 1 (Z.of_nat (List.length pr) + 1).
Proof.
  unfold ranked_index, items.
  destruct (insert_ID_columns (sort_values pr)) as [HID Hrows].
  split; [| split].
  - rewrite Hrows. apply sort_values_perm.
  - apply (Sorted_map_inv score_desc (fun r => (Kata r, PageRank r))).
    rewrite Hrows. apply sort_values_sorted.
  - rewrite HID. f_equal. f_equal. f_equal.
    apply Permutation_length, sort_values_perm.
Qed.

(** X12: every paper stored by the upload loop, run from an empty
    session, comes from an uploaded file of that name with more than
    five cleaned words: its graph is the graph built from those words,
    its count is their number, its scores are the ranker's scores of
    that graph, and its table holds exactly the entries of those
    scores, in an order in which the score never increases, numbered
    1..N. *)
Theorem upload_loop_stores_built_papers (w : Z) (fs : list upload)
    (s : session) (log : list call) (name : string) (p : paper) :
  process_uploads nx_pagerank w (initial_session, []) fs = Ok (s, log) ->
  get_item (paper_data s) name = Some p ->
  5 < count p /\
  (exists words, In (name, words) fs /\
                 build_graph words w = Ok (graph p) /\
                 count p = Z.of_nat (List.length words)) /\
  pagerank p = nx_pagerank (graph p) /\
  Permutation (map (fun r => (Kata r, PageRank r)) (df p)) (pagerank p) /\
  Sorted (fun r r' => (PageRank r' <= PageRank r)%Q) (df p) /\
  map ID (df p) = py_range 1 (Z.of_nat (List.length (pagerank p)) + 1).
Proof.
  intros E Hp.
  destruct (process_uploads_steps w fs initial_session [])
    as [s1 [log1 [E1 [_ [_ [_ C]]]]]].
  assert (Hs : s1 = s) by congruence. subst s1.
  destruct (C [] (initial_consistent w)) as [_ Hall].
  rewrite app_nil_r in Hall.
  destruct (Hall name p Hp) as [H1 [H2 [H3 H4]]].
  split; [exact H1 |]. split; [exact H2 |]. split; [exact H3 |].
  rewrite H4. apply ranked_index_columns.
Qed.

(** X13: the word-count gate lets a text that repeats one word more
    than five times through: the builder returns the empty graph, the
    ranker is called on it, and the paper is stored with it. *)
Theorem process_upload_ranks_empty_graph (w : Z) (s : session)
    (log : list call) (name : string) (words : list term) (t : term) :
  has_key name (paper_data s) = false ->
  5 < Z.of_nat (List.length words) ->
  (forall u, In u words -> u = t) ->
  process_upload nx_pagerank w (s, log) (name, words)
  = Ok (mk_session
          (set_item (paper_data s) name
             (mk_paper empty_graph (nx_pagerank empty_graph)
                (ranked_index (nx_pagerank empty_graph))
                (Z.of_nat (List.length words))))
          (Some name),
        log ++ [Built words w; Ranked empty_graph]).
Proof.
  intros Hk Hlen Hall. unfold process_upload. rewrite Hk. simpl negb.
  cbv iota. apply Z.ltb_lt in Hlen. rewrite Hlen.
  rewrite build_graph_equal_pairs; [reflexivity |].
  intros i j Hi Hj.
  destruct (getitem_nonneg words i) as [x [Ex _]]; [lia |].
  destruct (getitem_nonneg words (i + j)) as [y [Ey _]]; [lia |].
  rewrite Ex, Ey. f_equal.
  rewrite (Hall x (getitem_In _ _ _ Ex)), (Hall y (getitem_In _ _ _ Ey)).
  reflexivity.
Qed.

(** X14: a new file with more than five cleaned words is stored and
    becomes the paper on display, with the graph built from its
    words. *)
Theorem process_upload_shows_new_paper (w : Z) (s : session)
    (log : list call) (name : string) (words : list term) :
  has_key name (paper_data s) = false ->
  5 < Z.of_nat (List.length words) ->
  exists s' log' p,
    process_upload nx_pagerank w (s, log) (name, words) = Ok (s', log') /\
    display s' = Ok (Dashboard name p) /\
    build_graph words w = Ok (graph p) /\
    count p = Z.of_nat (List.length words).
Proof.
  intros Hk Hlen. unfold process_upload. rewrite Hk. simpl negb. cbv iota.
  apply Z.ltb_lt in Hlen. rewrite Hlen.
  destruct (build_graph_edges words w) as [G [EG _]]. rewrite EG. simpl bind.
  eexists. eexists. eexists. split; [reflexivity |].
  unfold display. simpl.
  destruct (set_item (paper_data s) name _) as [| e d] eqn:Es.
  - exfalso. eapply set_item_nonempty. exact Es.
  - rewrite <- Es, get_item_set_item, String.eqb_refl.
    split; [reflexivity |]. simpl. now split.
Qed.

End UploadLoop.

Lemma process_uploads_again_witness :
  process_uploads (fun _ => []) 3
    (mk_session [("banjir.pdf", mk_paper flood_graph [] [] 6)]
                (Some "banjir.pdf"),
     [Built flood_tokens 2; Ranked flood_graph])
    [("banjir.pdf", flood_tokens)]
  = Ok (mk_session [("banjir.pdf", mk_paper flood_graph [] [] 6)]
                   (Some "banjir.pdf"),
        [Built flood_tokens 2; Ranked flood_graph]).
Proof.
  apply (process_uploads_again (fun _ => []) 2 3 initial_session _ [] _
           [("banjir.pdf", flood_tokens)]).
  reflexivity.
Defined.

Lemma upload_loop_stores_built_papers_witness :
  5 < count flood_paper /\
  (exists words,
      In ("banjir.pdf", words) [("banjir.pdf", flood_tokens)] /\
      build_graph words 2 = Ok (graph flood_paper) /\
      count flood_paper = Z.of_nat (List.length words)) /\
  pagerank flood_paper = Ranker.rank (graph flood_paper) /\
  Permutation (map (fun r => (Kata r, PageRank r)) (df flood_paper))
              (pagerank flood_paper) /\
  Sorted (fun r r' => (PageRank r' <= PageRank r)%Q) (df flood_paper) /\
  map ID (df flood_paper)
  = py_range 1 (Z.of_nat (List.length (pagerank flood_paper)) + 1).
Proof.
  apply (upload_loop_stores_built_papers Ranker.rank 2
           [("banjir.pdf", flood_tokens)]
           (mk_session [("banjir.pdf", flood_paper)] (Some "banjir.pdf"))
           [Built flood_tokens 2; Ranked flood_graph]
           "banjir.pdf").
  - reflexivity.
  - reflexivity.
Defined.

Lemma process_upload_ranks_empty_graph_witness :
  process_upload (fun _ => []) 2 (initial_session, [])
    ("air.pdf", ["air"; "air"; "air"; "air"; "air"; "air"])
  = Ok (mk_session
          [("air.pdf", mk_paper empty_graph [] (ranked_index []) 6)]
          (Some "air.pdf"),
        [Built ["air"; "air"; "air"; "air"; "air"; "air"] 2;
         Ranked empty_graph]).
Proof.
  apply (process_upload_ranks_empty_graph (fun _ => []) 2 initial_session []
           "air.pdf" ["air"; "air"; "air"; "air"; "air"; "air"] "air").
  - reflexivity.
  - simpl. lia.
  - intros u H. simpl in H. intuition.
Defined.

Lemma process_upload_shows_new_paper_witness :
  exists s' log' p,
    process_upload (fun _ => []) 2 (initial_session, [])
      ("banjir.pdf", flood_tokens) = Ok (s', log') /\
    display s' = Ok (Dashboard "banjir.pdf" p) /\
    build_graph flood_tokens 2 = Ok (graph p) /\
    count p = Z.of_nat (List.length flood_tokens).
Proof.
  apply (process_upload_shows_new_paper (fun _ => []) 2 initial_session []
           "banjir.pdf" flood_tokens).
  - reflexivity.
  - simpl. lia.
Defined.

(** ** More on the displayed subgraph *)

Lemma mem_filter (p : term -> bool) (b : term) (l : list term) :
  mem b (filter p l) = mem b l && p b.
Proof.
  destruct (mem b (filter p l)) eqn:E.
  - apply mem_In, filter_In in E. destruct E as [E1 E2].
    apply mem_In in E1. now rewrite E1, E2.
  - destruct (mem b l) eqn:E1; [| reflexivity].
    destruct (p b) eqn:E2; [| reflexivity].
    apply mem_false in E. exfalso. apply E. apply filter_In.
    split; [now apply mem_In | assumption].
Qed.

Lemma neighbors_subgraph (G : Graph) (sel : list term) (a : term) :
  neighbors (subgraph G sel) a =
  if mem a sel
  then option_map (filter (fun v => mem v sel)) (neighbors G a)
  else None.
Proof.
  unfold subgraph. induction G as [| [n ns] G IH]; simpl.
  - now destruct (mem a sel).
  - destruct (mem n sel) eqn:En; simpl.
    + destruct (String.eqb_spec n a) as [-> | N].
      * now rewrite En.
      * exact IH.
    + rewrite IH. destruct (String.eqb_spec n a) as [-> | N].
      * now rewrite En.
      * reflexivity.
Qed.

Lemma has_edge_subgraph (G : Graph) (sel : list term) (a b : term) :
  has_edge (subgraph G sel) a b = has_edge G a b && mem a sel && mem b sel.
Proof.
  unfold has_edge. rewrite neighbors_subgraph.
  destruct (mem a sel); simpl.
  - destruct (neighbors G a) as [ns |]; simpl; [| reflexivity].
    rewrite mem_filter. now rewrite andb_true_r.
  - destruct (neighbors G a) as [ns |]; simpl;
      [now rewrite andb_false_r | reflexivity].
Qed.

Lemma nodes_subgraph_filter (G : Graph) (sel : list term) :
  nodes (subgraph G sel) = filter (fun u => mem u sel) (nodes G).
Proof.
  unfold nodes, subgraph. rewrite map_map. simpl.
  induction G as [| [n ns] G IH]; simpl; [reflexivity |].
  destruct (mem n sel); simpl; now rewrite IH.
Qed.

Lemma filter_all {A : Type} (p : A -> bool) (l : list A) :
  (forall a, In a l -> p a = true) -> filter p l = l.
Proof.
  induction l as [| a l IH]; intros H; simpl; [reflexivity |].
  rewrite (H a (or_introl eq_refl)), IH; [reflexivity |].
  intros b Hb. apply H. now right.
Qed.

Lemma subgraph_all (G : Graph) (sel : list term) :
  well_formed G -> (forall u, In u (nodes G) -> In u sel) ->
  subgraph G sel = G.
Proof.
  intros [_ Hw] Hsel. unfold subgraph. rewrite filter_all.
  - rewrite <- (map_id G) at 2. apply map_ext_in.
    intros [u ns] He. simpl. f_equal. apply filter_all.
    intros v Hv. apply mem_In, Hsel. eapply Hw; eassumption.
  - intros [u ns] He. apply mem_In, Hsel. unfold nodes.
    change u with (fst (u, ns)). now apply in_map.
Qed.

Lemma head_length (df : list row) (m : Z) :
  0 <= m -> Z.of_nat (List.length (head df m)) <= m.
Proof.
  intros Hm. unfold head. destruct (0 <=? m) eqn:E; [| lia].
  pose proof (firstn_le_length (Z.to_nat m) df). lia.
Qed.

Lemma subgraph_node_count (G : Graph) (sel : list term) :
  NoDup (nodes G) ->
  (List.length (nodes (subgraph G sel)) <= List.length sel)%nat.
Proof.
  intros Hn. rewrite nodes_subgraph_filter. apply NoDup_incl_length.
  - now apply NoDup_filter.
  - intros u Hu. apply filter_In in Hu. now apply mem_In.
Qed.

Lemma view_node_count (G : Graph) (pr : ScoreMap) (df : list row) (m : Z)
    (search_input : string) :
  NoDup (nodes G) -> df <> [] -> 1 <= m ->
  Z.of_nat (List.length (nodes (fst (view G pr df m None search_input)))) <= m.
Proof.
  intros Hn Hdf Hm. unfold view. simpl.
  destruct (top_words df m) as [| t ts] eqn:Et.
  - apply top_words_nil in Et; [contradiction | assumption].
  - simpl G_vis. rewrite <- Et.
    pose proof (subgraph_node_count G (top_words df m) Hn) as H1.
    pose proof (head_length df m) as H2. unfold top_words in H1 at 2.
    rewrite length_map in H1. lia.
Qed.

(** X15: the displayed graph is the subgraph induced on the selected
    words: two terms are linked in it exactly when they are linked in
    the full graph and both are selected; with nothing selected it has
    the edges of the full graph. *)
Theorem view_edges_induced (G : Graph) (pr : ScoreMap) (df : list row)
    (m : Z) (included : option (list term)) (search_input : string)
    (a b : term) :
  has_edge (fst (view G pr df m included search_input)) a b = true <->
  has_edge G a b = true /\
  (selected_words df m included = [] \/
   (In a (selected_words df m included) /\
    In b (selected_words df m included))).
Proof.
  unfold view. simpl.
  destruct (selected_words df m included) as [| t ts] eqn:Es; simpl G_vis.
  - tauto.
  - rewrite has_edge_subgraph, !andb_true_iff, !mem_In. split.
    + intros [[H1 H2] H3]. split; [assumption | now right].
    + intros [H1 [H2 | [H2 H3]]]; [discriminate | tauto].
Qed.

(** X16: with no explicit selection, a non-empty table and a cutoff of
    at least 1, the displayed graph has at most as many nodes as the
    cutoff says. *)
Theorem view_shows_at_most_cutoff (words : list term) (w : Z) (G : Graph)
    (pr : ScoreMap) (df : list row) (m : Z) (search_input : string) :
  build_graph words w = Ok G -> df <> [] -> 1 <= m ->
  Z.of_nat (List.length (nodes (fst (view G pr df m None search_input)))) <= m.
Proof.
  intros HB. apply view_node_count.
  apply (build_graph_well_formed words w G HB).
Qed.

Lemma view_shows_at_most_cutoff_witness :
  Z.of_nat (List.length
              (nodes (fst (view flood_graph flood_scores
                                (ranked_index flood_scores) 2 None ""))))
  <= 2.
Proof.
  apply (view_shows_at_most_cutoff flood_tokens 2);
    [reflexivity | discriminate | lia].
Defined.

(** X17: when the table has a row for every node and the cutoff is at
    least the number of rows, the displayed graph is the full graph. *)
Theorem view_shows_all_at_full_cutoff (words : list term) (w : Z) (G : Graph)
    (pr : ScoreMap) (df : list row) (m : Z) (search_input : string) :
  build_graph words w = Ok G ->
  (forall u, In u (nodes G) -> In u (map Kata df)) ->
  Z.of_nat (List.length df) <= m ->
  fst (view G pr df m None search_input) = G.
Proof.
  intros HB Hcov Hm. unfold view. simpl.
  assert (Ht : top_words df m = map Kata df).
  { unfold top_words, head. destruct (0 <=? m) eqn:E; [| lia].
    rewrite firstn_all2; [reflexivity | lia]. }
  rewrite Ht. destruct (map Kata df) as [| t ts] eqn:Ek; [reflexivity |].
  simpl G_vis. rewrite <- Ek in *. apply subgraph_all; [| assumption].
  apply (build_graph_well_formed words w G HB).
Qed.

Lemma view_shows_all_at_full_cutoff_witness :
  fst (view flood_graph flood_scores (ranked_index flood_scores) 3 None "")
  = flood_graph.
Proof.
  apply (view_shows_all_at_full_cutoff flood_tokens 2).
  - reflexivity.
  - simpl. intuition.
  - simpl. lia.
Defined.

(** X18: at the cutoff the number input starts with, min(40, rows), a
    non-empty table gives a displayed graph of at most 40 nodes. *)
Theorem view_default_at_most_40 (words : list term) (w : Z) (G : Graph)
    (pr : ScoreMap) (df : list row) (search_input : string) :
  build_graph words w = Ok G -> df <> [] ->
  Z.of_nat (List.length
              (nodes (fst (view G pr df (default_max_words df) None
                                search_input)))) <= 40.
Proof.
  intros HB Hdf.
  assert (H1 : 1 <= default_max_words df <= 40).
  { unfold default_max_words. destruct df; [congruence |].
    simpl List.length. lia. }
  pose proof (view_node_count G pr df (default_max_words df) search_input
                (proj1 (build_graph_well_formed words w G HB)) Hdf
                (proj1 H1)).
  lia.
Qed.

Lemma view_default_at_most_40_witness :
  Z.of_nat (List.length
              (nodes (fst (view flood_graph flood_scores
                                (ranked_index flood_scores)
                                (default_max_words (ranked_index flood_scores))
                                None "")))) <= 40.
Proof.
  apply (view_default_at_most_40 flood_tokens 2);
    [reflexivity | discriminate].
Defined.

(** ** More on search terms *)

Lemma comma_lower (c : ascii) :
  Ascii.eqb (lower_ascii c) "," = Ascii.eqb c ",".
Proof. destruct c as [[] [] [] [] [] [] [] []]; reflexivity. Qed.

Lemma split_comma_lower (s : string) :
  split_comma (lower s) = map lower (split_comma s).
Proof.
  induction s as [| c s IH]; simpl; [reflexivity |].
  rewrite comma_lower, IH.
  destruct (Ascii.eqb c ","); simpl; [reflexivity |].
  destruct (split_comma s); reflexivity.
Qed.

Lemma truthy_lower (s : string) : truthy (lower s) = truthy s.
Proof. now destruct s. Qed.

Lemma search_terms_lower (search_input : string) :
  search_terms (lower search_input) = search_terms search_input.
Proof.
  unfold search_terms. rewrite split_comma_lower.
  induction (split_comma search_input) as [| w ws IH]; simpl; [reflexivity |].
  rewrite strip_lower, truthy_lower.
  destruct (truthy (strip w)); simpl; [| exact IH].
  now rewrite strip_lower, lower_idem, IH.
Qed.

(** X19: the case of the search input does not matter: two inputs that
    agree up to the case of their letters give the same search terms,
    hence the same styling of every node. *)
Theorem search_ignores_input_case (pr : ScoreMap) (input input' : string)
    (word : term) :
  lower input = lower input' ->
  search_terms input = search_terms input' /\
  style pr (search_terms input) word = style pr (search_terms input') word.
Proof.
  intros H.
  assert (E : search_terms input = search_terms input').
  { now rewrite <- (search_terms_lower input), H, search_terms_lower. }
  split; [exact E | now rewrite E].
Qed.

Lemma search_ignores_input_case_witness :
  search_terms "FLOOD, River" = search_terms "flood, RIVER" /\
  style flood_scores (search_terms "FLOOD, River") "river"
  = style flood_scores (search_terms "flood, RIVER") "river".
Proof.
  apply (search_ignores_input_case flood_scores "FLOOD, River"
           "flood, RIVER" "river").
  reflexivity.
Defined.

Lemma lstrip_blank (s : string) : all_chars is_space s = true -> lstrip s = "".
Proof.
  induction s as [| c s IH]; simpl; [reflexivity |].
  intros H. apply andb_true_iff in H. destruct H as [Hc Hs].
  rewrite Hc. now apply IH.
Qed.

Lemma strip_blank (s : string) : all_chars is_space s = true -> strip s = "".
Proof. intros H. unfold strip. now rewrite lstrip_blank. Qed.

Lemma split_comma_blank (s : string) :
  all_chars (fun c => is_space c || Ascii.eqb c ",") s = true ->
  Forall (fun w => all_chars is_space w = true) (split_comma s).
Proof.
  induction s as [| c s IH]; simpl.
  - intros _. now repeat constructor.
  - intros H. apply andb_true_iff in H. destruct H as [Hc Hs].
    specialize (IH Hs). destruct (Ascii.eqb c ",") eqn:Ec.
    + constructor; [reflexivity | exact IH].
    + rewrite orb_false_r in Hc.
      destruct (split_comma s) as [| h t].
      * constructor; [simpl; now rewrite Hc | constructor].
      * inversion IH; subst. constructor; [| assumption].
        simpl. now rewrite Hc.
Qed.

(** X20: a search input made of white space and commas only gives no
    search term, and then no node is emphasized. *)
Theorem blank_search_emphasizes_nothing (pr : ScoreMap) (input : string)
    (word : term) :
  all_chars (fun c => is_space c || Ascii.eqb c ",") input = true ->
  search_terms input = [] /\
  emphasized (style pr (search_terms input) word) = false.
Proof.
  intros H.
  assert (E : search_terms input = []).
  { unfold search_terms. apply split_comma_blank in H.
    revert H. generalize (split_comma input). intros l H.
    induction H as [| w ws Hw _ IH]; [reflexivity |].
    cbn [filter]. rewrite (strip_blank w Hw). exact IH. }
  split; [exact E | now rewrite E].
Qed.

Lemma blank_search_emphasizes_nothing_witness :
  search_terms " , ,,  " = [] /\
  emphasized (style flood_scores (search_terms " , ,,  ") "flood") = false.
Proof.
  apply (blank_search_emphasizes_nothing flood_scores " , ,,  " "flood").
  reflexivity.
Defined.

(** X21: a node whose stored term has an upper-case letter is never
    emphasized, whatever is searched: the search terms are lower-cased
    and the stored term is compared as it is. *)
Theorem upper_case_term_never_emphasized (pr : ScoreMap) (input : string)
    (word : term) :
  lower word <> word ->
  emphasized (style pr (search_terms input) word) = false.
Proof.
  intros H. unfold style.
  destruct (mem word (search_terms input)) eqn:E; [| reflexivity].
  exfalso. apply H. apply mem_In in E.
  pose proof (search_terms_clean input) as Hc.
  rewrite Forall_forall in Hc. now destruct (Hc word E) as [_ [_ Hl]].
Qed.

Lemma upper_case_term_never_emphasized_witness :
  emphasized (style flood_scores (search_terms "Flood, flood") "Flood") = false.
Proof.
  apply (upper_case_term_never_emphasized flood_scores "Flood, flood" "Flood").
  discriminate.
Defined.

(** ** The text cleaner *)

Section Cleaner.

Variable word_tokenize : string -> option (list string).
Variable stopwords_words : string -> option (list string).

Lemma process_text_In (text : string) (w : string) :
  In w (process_text word_tokenize stopwords_words text) ->
  exists stop, is_clean (stop ++ custom_stopwords) w = true /\
    stop = match stopwords_words "indonesian" with
           | Some ws => ws
           | None => []
           end.
Proof.
  unfold process_text. intros H. apply filter_In in H.
  destruct H as [_ H]. eexists. split; [exact H | reflexivity].
Qed.

(** X22: whatever the tokenizer and the stop-word list return, every
    word that [process_text] returns consists of letters only, has more
    than two characters, and is neither a stop word of the list in the
    code nor one of the library's list. *)
Theorem process_text_words_are_clean (text : string) (w : string) :
  In w (process_text word_tokenize stopwords_words text) ->
  isalpha w = true /\ (2 < String.length w)%nat /\
  ~ In w custom_stopwords /\
  (forall ws, stopwords_words "indonesian" = Some ws -> ~ In w ws).
Proof.
  intros H. apply process_text_In in H. destruct H as [stop [H Es]].
  unfold is_clean in H. apply andb_true_iff in H. destruct H as [H H3].
  apply andb_true_iff in H. destruct H as [H1 H2].
  apply negb_true_iff, mem_false in H2.
  split; [exact H1 |]. split; [now apply Nat.ltb_lt |]. split.
  - intros Hin. apply H2, in_or_app. now right.
  - intros ws Ews Hin. apply H2, in_or_app. left.
    rewrite Es, Ews. exact Hin.
Qed.

(** X23: every node of a graph built from the words of [process_text]
    is such a cleaned word: letters only, more than two characters, not
    a stop word of the list in the code. *)
Theorem graph_nodes_are_clean_words (text : string) (w : Z) (G : Graph)
    (u : term) :
  build_graph (process_text word_tokenize stopwords_words text) w = Ok G ->
  In u (nodes G) ->
  isalpha u = true /\ (2 < String.length u)%nat /\ ~ In u custom_stopwords.
Proof.
  intros HB Hu. apply (build_graph_nodes _ w G HB) in Hu.
  apply process_text_In in Hu. destruct Hu as [stop [H _]].
  unfold is_clean in H. apply andb_true_iff in H. destruct H as [H H3].
  apply andb_true_iff in H. destruct H as [H1 H2].
  apply negb_true_iff, mem_false in H2.
  split; [exact H1 |]. split; [now apply Nat.ltb_lt |].
  intros Hin. apply H2, in_or_app. now right.
Qed.

End Cleaner.

Lemma process_text_words_are_clean_witness :
  isalpha "gempa" = true /\ (2 < String.length "gempa")%nat /\
  ~ In "gempa" custom_stopwords /\
  (forall ws, (fun _ : string => @None (list string)) "indonesian" = Some ws ->
              ~ In "gempa" ws).
Proof.
  apply (process_text_words_are_clean (fun _ => None) (fun _ => None)
           "Gempa 2021: data GEMPA di Bumi!" "gempa").
  simpl. now left.
Defined.

Lemma graph_nodes_are_clean_words_witness :
  isalpha "bumi" = true /\ (2 < String.length "bumi")%nat /\
  ~ In "bumi" custom_stopwords.
Proof.
  apply (graph_nodes_are_clean_words (fun _ => None) (fun _ => None)
           "Gempa bumi, patahan, gempa 7 bumi; tsunami patahan." 1
           [("gempa", ["bumi"; "patahan"]);
            ("bumi", ["gempa"; "patahan"; "tsunami"]);
            ("patahan", ["bumi"; "gempa"; "tsunami"]);
            ("tsunami", ["bumi"; "patahan"])]
           "bumi").
  - reflexivity.
  - simpl. tauto.
Defined.

(** ** The cleaner on the fall-back tokenizer *)

Lemma all_chars_impl (p q : ascii -> bool) (s : string) :
  (forall c, p c = true -> q c = true) ->
  all_chars p s = true -> all_chars q s = true.
Proof.
  intros Hpq. induction s as [| c s IH]; simpl; [reflexivity |].
  intros H. apply andb_true_iff in H. destruct H as [Hc Hs].
  now rewrite (Hpq c Hc), IH.
Qed.

Lemma all_chars_and (p q : ascii -> bool) (s : string) :
  all_chars p s = true -> all_chars q s = true ->
  all_chars (fun c => p c && q c) s = true.
Proof.
  induction s as [| c s IH]; simpl; [reflexivity |].
  intros Hp Hq. apply andb_true_iff in Hp, Hq.
  destruct Hp as [Hp1 Hp2], Hq as [Hq1 Hq2].
  now rewrite Hp1, Hq1, IH.
Qed.

Lemma all_chars_append (p : ascii -> bool) (s s' : string) :
  all_chars p (s ++ s')%string = all_chars p s && all_chars p s'.
Proof.
  induction s as [| c s IH]; simpl; [reflexivity |].
  now rewrite IH, andb_assoc.
Qed.

Lemma all_chars_split (p : ascii -> bool) (s : string) :
  all_chars p s = true -> Forall (fun w => all_chars p w = true) (split s).
Proof.
  induction s as [| c s IH]; simpl; [constructor |].
  intros H. apply andb_true_iff in H. destruct H as [Hc Hs].
  specialize (IH Hs). destruct (is_space c); [exact IH |].
  destruct (starts_word s).
  - destruct (split s) as [| h t].
    + constructor; [simpl; now rewrite Hc | constructor].
    + inversion IH; subst. constructor; [| assumption].
      simpl. now rewrite Hc.
  - constructor; [simpl; now rewrite Hc | exact IH].
Qed.

Lemma all_chars_lower (s : string) : all_chars lower_fixed (lower s) = true.
Proof.
  induction s as [| c s IH]; simpl; [reflexivity |].
  unfold lower_fixed at 1. now rewrite lower_ascii_idem, Ascii.eqb_refl.
Qed.

Lemma lower_fixed_string (s : string) :
  all_chars lower_fixed s = true -> lower s = s.
Proof.
  induction s as [| c s IH]; simpl; [reflexivity |].
  intros H. apply andb_true_iff in H. destruct H as [Hc Hs].
  apply Ascii.eqb_eq in Hc. now rewrite Hc, IH.
Qed.

Lemma keep_all (p : ascii -> bool) (s : string) :
  all_chars p s = true -> keep p s = s.
Proof.
  induction s as [| c s IH]; simpl; [reflexivity |].
  intros H. apply andb_true_iff in H. destruct H as [Hc Hs].
  now rewrite Hc, IH.
Qed.

Lemma plain_facts (c : ascii) :
  plain c = true ->
  negb (is_digit c) = true /\ is_word_char c || is_space c = true /\
  lower_fixed c = true.
Proof. destruct c as [[] [] [] [] [] [] [] []]; cbv; intuition congruence. Qed.

Lemma alpha_not_space (c : ascii) :
  is_alpha c = true -> negb (is_space c) = true.
Proof. destruct c as [[] [] [] [] [] [] [] []]; cbv; congruence. Qed.

Lemma all_chars_concat (p : ascii -> bool) (ws : list string) :
  p " "%char = true -> Forall (fun w => all_chars p w = true) ws ->
  all_chars p (String.concat " " ws) = true.
Proof.
  intros Hsp H. induction H as [| w ws Hw Hws IH]; [reflexivity |].
  destruct ws as [| w' ws']; [exact Hw |].
  change (String.concat " " (w :: w' :: ws'))
    with (w ++ String " " (String.concat " " (w' :: ws')))%string.
  rewrite all_chars_append, Hw. cbn [all_chars andb]. now rewrite Hsp, IH.
Qed.

Lemma split_word (w tail : string) :
  truthy w = true -> all_chars (fun c => negb (is_space c)) w = true ->
  starts_word tail = false ->
  split (w ++ tail) = w :: split tail.
Proof.
  induction w as [| c w IH]; [discriminate |].
  intros _ H Ht. simpl in H. apply andb_true_iff in H.
  destruct H as [Hc Hw]. apply negb_true_iff in Hc.
  cbn [String.append split]. rewrite Hc.
  destruct w as [| d w'].
  - simpl. now rewrite Ht.
  - assert (Hd : starts_word (String d w' ++ tail) = true).
    { simpl in Hw. apply andb_true_iff in Hw. now destruct Hw. }
    rewrite Hd, IH by (try reflexivity; assumption). reflexivity.
Qed.

Lemma append_empty_r (s : string) : (s ++ "")%string = s.
Proof. induction s as [| c s IH]; simpl; [reflexivity | now rewrite IH]. Qed.

Lemma split_concat (ws : list string) :
  Forall (fun w => truthy w = true /\
                   all_chars (fun c => negb (is_space c)) w = true) ws ->
  split (String.concat " " ws) = ws.
Proof.
  intros H. induction H as [| w ws [Hw1 Hw2] Hws IH]; [reflexivity |].
  destruct ws as [| w' ws'].
  - change (String.concat " " [w]) with w.
    rewrite <- (append_empty_r w) at 1.
    now rewrite split_word.
  - change (String.concat " " (w :: w' :: ws'))
      with (w ++ String " " (String.concat " " (w' :: ws')))%string.
    rewrite split_word; [| assumption | assumption | reflexivity].
    f_equal. exact IH.
Qed.

Section FallBack.

Variable word_tokenize : string -> option (list string).
Variable stopwords_words : string -> option (list string).

Lemma process_text_fallback_lower (text : string) :
  word_tokenize (lower (remove_punctuation (remove_digits text))) = None ->
  Forall (fun w => all_chars lower_fixed w = true)
         (process_text word_tokenize stopwords_words text).
Proof.
  intros Ht. unfold process_text. rewrite Ht.
  apply Forall_forall. intros w Hw. apply filter_In in Hw.
  destruct Hw as [Hw _].
  pose proof (all_chars_split lower_fixed _ (all_chars_lower
    (remove_punctuation (remove_digits text)))) as H.
  rewrite Forall_forall in H. now apply H.
Qed.

(** X24: when the tokenizer raises and [text.split()] is used instead,
    every word that [process_text] returns is in lower case. *)
Theorem process_text_fallback_lower_case (text : string) (w : string) :
  word_tokenize (lower (remove_punctuation (remove_digits text))) = None ->
  In w (process_text word_tokenize stopwords_words text) ->
  lower w = w.
Proof.
  intros Ht Hw. apply lower_fixed_string.
  pose proof (process_text_fallback_lower text Ht) as H.
  rewrite Forall_forall in H. now apply H.
Qed.

(** X25: when the tokenizer always raises, cleaning is idempotent:
    the cleaned words, joined by blanks and cleaned again, come back
    unchanged. *)
Theorem process_text_idempotent (text : string) :
  (forall t, word_tokenize t = None) ->
  process_text word_tokenize stopwords_words
    (String.concat " " (process_text word_tokenize stopwords_words text))
  = process_text word_tokenize stopwords_words text.
Proof.
  intros Ht.
  pose proof (process_text_fallback_lower text (Ht _)) as Hlow.
  remember (process_text word_tokenize stopwords_words text) as out eqn:Eo.
  assert (Hclean : forall w, In w out ->
            is_clean ((match stopwords_words "indonesian" with
                       | Some ws => ws
                       | None => []
                       end) ++ custom_stopwords) w = true).
  { intros w Hw. subst out. unfold process_text in Hw.
    apply filter_In in Hw. now destruct Hw. }
  assert (Halpha : forall w, In w out ->
            truthy w = true /\ all_chars is_alpha w = true).
  { intros w Hw. specialize (Hclean w Hw). unfold is_clean, isalpha in Hclean.
    apply andb_true_iff in Hclean. destruct Hclean as [H _].
    apply andb_true_iff in H. destruct H as [H _].
    now apply andb_true_iff in H. }
  assert (Hplain : all_chars plain (String.concat " " out) = true).
  { apply all_chars_concat; [reflexivity |].
    apply Forall_forall. intros w Hw.
    rewrite Forall_forall in Hlow.
    apply (all_chars_impl (fun c => is_alpha c && lower_fixed c)).
    - intros c Hc. unfold plain. now rewrite Hc.
    - apply all_chars_and; [apply (Halpha w Hw) | now apply Hlow]. }
  unfold process_text at 1. rewrite Ht.
  unfold remove_digits, remove_punctuation.
  rewrite (keep_all (fun c => negb (is_digit c))).
  2:{ apply (all_chars_impl plain); [| exact Hplain].
      intros c Hc. now apply plain_facts. }
  rewrite (keep_all (fun c => is_word_char c || is_space c)).
  2:{ apply (all_chars_impl plain); [| exact Hplain].
      intros c Hc. now apply plain_facts. }
  rewrite lower_fixed_string.
  2:{ apply (all_chars_impl plain); [| exact Hplain].
      intros c Hc. now apply plain_facts. }
  rewrite split_concat.
  - now apply filter_all.
  - apply Forall_forall. intros w Hw. destruct (Halpha w Hw) as [H1 H2].
    split; [exact H1 |].
    apply (all_chars_impl is_alpha); [apply alpha_not_space | exact H2].
Qed.

End FallBack.

Lemma process_text_fallback_lower_case_witness : lower "gempa" = "gempa".
Proof.
  apply (process_text_fallback_lower_case (fun _ => None) (fun _ => None)
           "Gempa 2021: data GEMPA di Bumi!" "gempa").
  - reflexivity.
  - simpl. now left.
Defined.

Lemma process_text_idempotent_witness :
  process_text (fun _ => None) (fun _ => None)
    (String.concat " "
       (process_text (fun _ => None) (fun _ => None)
          "Gempa 2021: data GEMPA di Bumi!"))
  = process_text (fun _ => None) (fun _ => None)
      "Gempa 2021: data GEMPA di Bumi!".
Proof.
  apply (process_text_idempotent (fun _ => None) (fun _ => None)
           "Gempa 2021: data GEMPA di Bumi!").
  reflexivity.
Defined.

(** ** From the text to the highlighted nodes *)

Section EndToEnd.

Variable word_tokenize : string -> option (list string).
Variable stopwords_words : string -> option (list string).

(** X26: on the fall-back tokenizer, for the graph built from the
    cleaned words of a text, a displayed node is emphasized exactly
    when its term is among the search terms, that is, among the
    trimmed, lower-cased non-empty pieces of the search input. *)
Theorem highlight_matches_search (text : string) (w : Z) (G : Graph)
    (pr : ScoreMap) (df : list row) (max_words : Z)
    (included : option (list term)) (search_input : string) (u : term) :
  word_tokenize (lower (remove_punctuation (remove_digits text))) = None ->
  build_graph (process_text word_tokenize stopwords_words text) w = Ok G ->
  In u (nodes (fst (view G pr df max_words included search_input))) ->
  (emphasized (style pr (search_terms search_input) u) = true <->
   exists piece, In piece (split_comma search_input) /\
                 strip piece <> EmptyString /\
                 lower (strip piece) = lower u).
Proof.
  intros Ht HB Hu.
  assert (Hlow : lower u = u).
  { unfold view in Hu. simpl in Hu. apply nodes_G_vis in Hu.
    destruct Hu as [Hu _]. apply (build_graph_nodes _ w G HB) in Hu.
    apply lower_fixed_string.
    pose proof (process_text_fallback_lower word_tokenize stopwords_words
                  text Ht) as H.
    rewrite Forall_forall in H. now apply H. }
  rewrite Hlow.
  assert (E : emphasized (style pr (search_terms search_input) u)
              = mem u (search_terms search_input)).
  { unfold style. now destruct (mem u _). }
  rewrite E, mem_In. unfold search_terms. rewrite in_map_iff. split.
  - intros [piece [Ep Hp]]. apply filter_In in Hp. destruct Hp as [Hin Hp].
    exists piece. split; [exact Hin |]. split; [| exact Ep].
    intros H0. rewrite H0 in Hp. discriminate.
  - intros [piece [Hin [Hne Ep]]]. exists piece. split; [exact Ep |].
    apply filter_In. split; [exact Hin |].
    destruct (strip piece); [congruence | reflexivity].
Qed.

End EndToEnd.

Lemma highlight_matches_search_witness :
  emphasized (style flood_scores (search_terms " Flood ,river") "flood") = true
  <->
  exists piece, In piece (split_comma " Flood ,river") /\
                strip piece <> EmptyString /\
                lower (strip piece) = lower "flood".
Proof.
  apply (highlight_matches_search (fun _ => None) (fun _ => None)
           "Flood river; flood bridge, river flood." 2 flood_graph
           flood_scores (ranked_index flood_scores) 3 None
           " Flood ,river" "flood").
  - reflexivity.
  - reflexivity.
  - simpl. now left.
Defined.
